(** * HashTableLinearProbing: a fixed-capacity open-addressing table

    A shallow embedding of the class template [HashTableLinearProbing<K,V>]
    of [SourceJZ.cpp] (linear probing, deletion by deactivating a slot),
    followed by the properties of its three operations [insert],
    [retrieve] and [remove]. *)

From Stdlib Require Import ZArith Lia.
From stdpp Require Import base decidable option numbers list strings.

Local Open Scope Z_scope.

(** ** Machine integers

    [int] is a 32-bit two's complement integer and [size_t] a 64-bit
    unsigned one.  Values are kept in [Z]; every conversion writes the
    wrap-around out. *)

Module MachineInt.

Definition int_min : Z := - 2 ^ 31.
Definition int_max : Z := 2 ^ 31 - 1.

(** Conversion to [int]: the representative of [z] modulo [2^32] that
    lies in [[int_min, int_max]]. *)
Definition to_int (z : Z) : Z := (z + 2 ^ 31) mod 2 ^ 32 - 2 ^ 31.

(** Conversion to [size_t]: the representative modulo [2^64]. *)
Definition to_size_t (z : Z) : Z := z mod 2 ^ 64.

End MachineInt.

Export MachineInt.

(** ** Outcomes of a call

    A call returns, throws one of the standard exceptions the source
    uses, or runs into behaviour the language leaves undefined.
    [OutOfFuel] belongs to the model only: the probe loops are written
    with an iteration budget, and [probe_bound] below shows which budget
    is always enough. *)

Inductive exception : Type :=
  | overflow_error   (* "Hash table is full" *)
  | runtime_error    (* "Key not found" *)
  | length_error.    (* std::vector refusing a size *)

Inductive undefined : Type :=
  | DivisionByZero
  | OutOfBounds.

Inductive outcome (A : Type) : Type :=
  | Ok (a : A)
  | Throw (e : exception)
  | Undefined (u : undefined)
  | OutOfFuel.

Arguments Ok {A} a.
Arguments Throw {A} e.
Arguments Undefined {A} u.
Arguments OutOfFuel {A}.

#[global] Instance outcome_bind : MBind outcome := λ A B f m,
  match m with
  | Ok a => f a
  | Throw e => Throw e
  | Undefined u => Undefined u
  | OutOfFuel => OutOfFuel
  end.

#[global] Instance exception_eq_dec : EqDecision exception.
Proof. solve_decision. Defined.

(** ** The class template *)

Section HashTable.

(** [K] comes with [operator==] and a default constructor, [V] with a
    default constructor; [hash] stands for [std::hash<K>], whose result
    is a [size_t]. *)
Context {K V : Type} `{EqDecision K} `{Inhabited K} `{Inhabited V}.
Variable hash : K → Z.

Record Entry : Type := mkEntry {
  key : K;
  value : V;
  occupied : bool;
  active : bool
}.

(** [Entry()] *)
Definition Entry_default : Entry := mkEntry inhabitant inhabitant false false.

(** [Entry(K k, V v)] *)
Definition Entry_of (k : K) (v : V) : Entry := mkEntry k v true true.

Definition set_active (b : bool) (e : Entry) : Entry :=
  mkEntry (key e) (value e) (occupied e) b.

Record HashTableLinearProbing : Type := mkTable {
  table : list Entry;
  capacity : Z;
  size : Z
}.

(** The constructor.  [table(capacity)] converts the [int] to
    [size_t]; a negative argument becomes a size no vector accepts. *)
Definition new (capacity : Z) : outcome HashTableLinearProbing :=
  if capacity <? 0 then Throw length_error
  else Ok (mkTable (replicate (Z.to_nat capacity) Entry_default) capacity 0).

(** [table[index]] as an rvalue.  The [int] index is converted to
    [size_t], so a negative index lies beyond every vector. *)
Definition slot (tbl : list Entry) (index : Z) : outcome Entry :=
  if index <? 0 then Undefined OutOfBounds
  else match tbl !! Z.to_nat index with
       | Some e => Ok e
       | None => Undefined OutOfBounds
       end.

(** [table[index] = e] *)
Definition store (tbl : list Entry) (index : Z) (e : Entry) : outcome (list Entry) :=
  _ ← slot tbl index; Ok (<[Z.to_nat index := e]> tbl).

(** [hashObj(key) % capacity]: the division is done in [size_t], the
    result is returned as [int]. *)
Definition hashFunction (t : HashTableLinearProbing) (k : K) : outcome Z :=
  let c := to_size_t (capacity t) in
  if c =? 0 then Undefined DivisionByZero
  else Ok (to_int (to_size_t (hash k) mod c)).

(** [(index + 1) % capacity] in [int] arithmetic ([%] truncates). *)
Definition next_index (t : HashTableLinearProbing) (index : Z) : outcome Z :=
  if capacity t =? 0 then Undefined DivisionByZero
  else Ok (Z.rem (to_int (index + 1)) (capacity t)).

(** The [while] loop of [insert]; one unit of fuel per evaluation of
    the loop condition, that is, per slot examined. *)
Fixpoint insert_probe (fuel : nat) (t : HashTableLinearProbing) (k : K)
    (start_index index : Z) : outcome Z :=
  match fuel with
  | O => OutOfFuel
  | S fuel =>
      e ← slot (table t) index;
      if occupied e && negb (bool_decide (key e = k)) then
        index' ← next_index t index;
        if index' =? start_index then Throw overflow_error
        else insert_probe fuel t k start_index index'
      else Ok index
  end.

Definition insert_with (fuel : nat) (t : HashTableLinearProbing) (k : K) (v : V)
    : outcome HashTableLinearProbing :=
  index ← hashFunction t k;
  index ← insert_probe fuel t k index index;
  tbl ← store (table t) index (Entry_of k v);
  (* the test reads the entry that was just stored *)
  e ← slot tbl index;
  if negb (active e) then
    tbl' ← store tbl index (set_active true e);
    Ok (mkTable tbl' (capacity t) (to_int (size t + 1)))
  else Ok (mkTable tbl (capacity t) (size t)).

(** The [while] loop of [retrieve], together with the [throw] that
    follows it. *)
Fixpoint retrieve_loop (fuel : nat) (t : HashTableLinearProbing) (k : K)
    (start_index index : Z) : outcome V :=
  match fuel with
  | O => OutOfFuel
  | S fuel =>
      e ← slot (table t) index;
      if occupied e then
        if bool_decide (key e = k) && active e then Ok (value e)
        else
          index' ← next_index t index;
          if index' =? start_index then Throw runtime_error
          else retrieve_loop fuel t k start_index index'
      else Throw runtime_error
  end.

Definition retrieve_with (fuel : nat) (t : HashTableLinearProbing) (k : K) : outcome V :=
  index ← hashFunction t k;
  retrieve_loop fuel t k index index.

(** The [while] loop of [remove], together with the [return false]
    that follows it.  [size--] is [int] arithmetic: it is [size - 1]
    unless [size] is [int_min], where the language leaves it undefined
    and the model wraps round. *)
Fixpoint remove_loop (fuel : nat) (t : HashTableLinearProbing) (k : K)
    (start_index index : Z) : outcome (HashTableLinearProbing * bool) :=
  match fuel with
  | O => OutOfFuel
  | S fuel =>
      e ← slot (table t) index;
      if occupied e then
        if bool_decide (key e = k) && active e then
          tbl ← store (table t) index (set_active false e);
          Ok (mkTable tbl (capacity t) (to_int (size t - 1)), true)
        else
          index' ← next_index t index;
          if index' =? start_index then Ok (t, false)
          else remove_loop fuel t k start_index index'
      else Ok (t, false)
  end.

Definition remove_with (fuel : nat) (t : HashTableLinearProbing) (k : K)
    : outcome (HashTableLinearProbing * bool) :=
  index ← hashFunction t k;
  remove_loop fuel t k index index.

(** A budget of [capacity] slot examinations per call. *)
Definition probe_bound (t : HashTableLinearProbing) : nat := Z.to_nat (capacity t).

Definition insert (t : HashTableLinearProbing) (k : K) (v : V) :=
  insert_with (probe_bound t) t k v.
Definition retrieve (t : HashTableLinearProbing) (k : K) :=
  retrieve_with (probe_bound t) t k.
Definition remove (t : HashTableLinearProbing) (k : K) :=
  remove_with (probe_bound t) t k.

(** ** Sequences of operations

    A caller such as [main] catches what [insert] and [retrieve] throw
    and carries on with the table as the call left it; none of the
    three operations writes to the table before it throws.  (On a
    table the constructor built no call has an undefined outcome, as
    proved below; [apply] maps such an outcome to the table unchanged
    only to be total.) *)

Inductive operation : Type :=
  | Insert (k : K) (v : V)
  | Retrieve (k : K)
  | Remove (k : K).

Definition apply (t : HashTableLinearProbing) (o : operation) : HashTableLinearProbing :=
  match o with
  | Insert k v => match insert t k v with Ok t' => t' | _ => t end
  | Retrieve k => t
  | Remove k => match remove t k with Ok (t', _) => t' | _ => t end
  end.

Definition run (ops : list operation) (t : HashTableLinearProbing) : HashTableLinearProbing :=
  fold_left apply ops t.

(** A table built with a positive [int] capacity and then used. *)
Definition reachable (t : HashTableLinearProbing) : Prop :=
  ∃ (c : Z) (t0 : HashTableLinearProbing) (ops : list operation),
    0 < c ≤ int_max ∧ new c = Ok t0 ∧ t = run ops t0.

(** ** Vocabulary of the specification *)

(** A slot is live when it has been written and is not deactivated. *)
Definition live (e : Entry) : bool := occupied e && active e.

Definition live_count (t : HashTableLinearProbing) : Z :=
  Z.of_nat (length (filter (λ e, live e = true) (table t))).

Definition live_count_of (k : K) (t : HashTableLinearProbing) : Z :=
  Z.of_nat (length (filter (λ e, live e = true ∧ key e = k) (table t))).

(** What the constructor establishes and every operation keeps. *)
Definition well_formed (t : HashTableLinearProbing) : Prop :=
  0 < capacity t ≤ int_max ∧ Z.of_nat (length (table t)) = capacity t.

(** ** Notions used in the proofs *)

(** The search that [retrieve] and [remove] share: the index of the
    first written slot on the probe path that holds [k] and is active. *)
Fixpoint scan (fuel : nat) (t : HashTableLinearProbing) (k : K)
    (start_index index : Z) : outcome (option Z) :=
  match fuel with
  | O => OutOfFuel
  | S fuel =>
      e ← slot (table t) index;
      if occupied e then
        if bool_decide (key e = k) && active e then Ok (Some index)
        else
          index' ← next_index t index;
          if index' =? start_index then Ok None
          else scan fuel t k start_index index'
      else Ok None
  end.

(** The loop condition of [insert], and the test inside the loops of
    [retrieve] and [remove]. *)
Definition blocks (k : K) (e : Entry) : bool :=
  occupied e && negb (bool_decide (key e = k)).

Definition matches (k : K) (e : Entry) : bool :=
  bool_decide (key e = k) && active e.

(** The home index of a key and the index [d] steps further on. *)
Definition home (t : HashTableLinearProbing) (k : K) : Z :=
  to_size_t (hash k) mod capacity t.

Definition off (t : HashTableLinearProbing) (h d : Z) : Z :=
  (h + d) mod capacity t.

(** The entry at index [i], when there is one. *)
Definition entry_at (t : HashTableLinearProbing) (i : Z) (e : Entry) : Prop :=
  0 ≤ i ∧ table t !! Z.to_nat i = Some e.

(** The slots at offsets [lo], ..., [hi - 1] from [h] all keep the
    probe of [insert], respectively the search, going. *)
Definition blocked_on (t : HashTableLinearProbing) (k : K) (h lo hi : Z) : Prop :=
  ∀ j, lo ≤ j < hi → ∃ e, entry_at t (off t h j) e ∧ blocks k e = true.

Definition passed_on (t : HashTableLinearProbing) (k : K) (h lo hi : Z) : Prop :=
  ∀ j, lo ≤ j < hi →
    ∃ e, entry_at t (off t h j) e ∧ occupied e = true ∧ matches k e = false.

(** The table [t] with [x] written to slot [i] and [sz] as its size. *)
Definition with_slot (t : HashTableLinearProbing) (i : Z) (x : Entry) (sz : Z)
    : HashTableLinearProbing :=
  mkTable (<[Z.to_nat i := x]> (table t)) (capacity t) sz.

(** The search of [retrieve] and [remove] from the home index. *)
Definition find (t : HashTableLinearProbing) (k : K) : outcome (option Z) :=
  scan (probe_bound t) t k (home t k) (home t k).

(** I3: every written slot is reached from the home index of its key
    through written slots that hold other keys. *)
Definition probe_path (t : HashTableLinearProbing) : Prop :=
  ∀ d e, 0 ≤ d < capacity t →
    entry_at t (off t (home t (key e)) d) e → occupied e = true →
    ∀ j, 0 ≤ j < d →
      ∃ e', entry_at t (off t (home t (key e)) j) e' ∧
            occupied e' = true ∧ key e' ≠ key e.

Definition invariant (t : HashTableLinearProbing) : Prop :=
  well_formed t ∧ probe_path t.

(** I2, on indices: two live slots with the same key are one slot. *)
Definition distinct_live_keys (t : HashTableLinearProbing) : Prop :=
  ∀ i j ei ej, entry_at t i ei → entry_at t j ej →
    live ei = true → live ej = true → key ei = key ej → i = j.

(** ** The performance test

    [performTest] fills two vectors with generated keys and values,
    inserts them all, retrieves every key, removes every key, and
    prints three durations.  The random engine is represented by the
    pairs it produces, [gen i] being [(keys[i], values[i])]; clocks and
    printing do not touch the table and are left out.  An exception
    leaves the function at once; the table as it is at that moment is
    not part of the outcome. *)

Fixpoint insert_each (t : HashTableLinearProbing) (kvs : list (K * V))
    : outcome HashTableLinearProbing :=
  match kvs with
  | [] => Ok t
  | (k, v) :: kvs => t' ← insert t k v; insert_each t' kvs
  end.

Fixpoint retrieve_each (t : HashTableLinearProbing) (ks : list K) : outcome unit :=
  match ks with
  | [] => Ok ()
  | k :: ks => _ ← retrieve t k; retrieve_each t ks
  end.

Fixpoint remove_each (t : HashTableLinearProbing) (ks : list K)
    : outcome HashTableLinearProbing :=
  match ks with
  | [] => Ok t
  | k :: ks => '(t', _) ← remove t k; remove_each t' ks
  end.

Definition generated (gen : nat → K * V) (numOperations : Z) : list (K * V) :=
  gen <$> seq 0 (Z.to_nat numOperations).

Definition performTest (t : HashTableLinearProbing) (numOperations : Z)
    (gen : nat → K * V) : outcome HashTableLinearProbing :=
  (* vector<string> keys(numOperations) *)
  if numOperations <? 0 then Throw length_error
  else
    let kvs := generated gen numOperations in
    t1 ← insert_each t kvs;
    _ ← retrieve_each t1 kvs.*1;
    remove_each t1 kvs.*1.

(** ** One turn of the menu loop of [main]

    A [request] is what one turn reads from the input (the choice and
    the values asked for, all read successfully), a [report] what the
    [switch] prints; the menu text that [displayMenu] prints before
    every turn is left out.  A turn goes on with a table, returns from
    [main], or is left by an exception that nothing catches. *)

Inductive request : Type :=
  | AskInsert (k : K) (v : V)                       (* choice 1 *)
  | AskRetrieve (k : K)                             (* choice 2 *)
  | AskRemove (k : K)                               (* choice 3 *)
  | AskTest (numTests : Z) (gen : nat → K * V)      (* choice 4 *)
  | AskExit                                         (* choice 5 *)
  | AskOther.                                       (* any other number *)

Inductive report : Type :=
  | SayInserted (k : K) (v : V)
  | SayError (e : exception)
  | SayValue (k : K) (v : V)
  | SayRemoved (k : K)
  | SayNotFound (k : K)
  | SayPerformance
  | SayExiting
  | SayInvalid.

(** [catch (const overflow_error&)] and [catch (const runtime_error&)]:
    [std::overflow_error] is derived from [std::runtime_error],
    [std::length_error] is not. *)
Definition caught_as_overflow_error (e : exception) : bool :=
  match e with overflow_error => true | _ => false end.

Definition caught_as_runtime_error (e : exception) : bool :=
  match e with overflow_error | runtime_error => true | length_error => false end.

Definition turn (t : HashTableLinearProbing) (r : request)
    : outcome (report * option HashTableLinearProbing) :=
  match r with
  | AskInsert k v =>
      match insert t k v with
      | Ok t' => Ok (SayInserted k v, Some t')
      | Throw e =>
          if caught_as_overflow_error e then Ok (SayError e, Some t) else Throw e
      | Undefined u => Undefined u
      | OutOfFuel => OutOfFuel
      end
  | AskRetrieve k =>
      match retrieve t k with
      | Ok v => Ok (SayValue k v, Some t)
      | Throw e =>
          if caught_as_runtime_error e then Ok (SayError e, Some t) else Throw e
      | Undefined u => Undefined u
      | OutOfFuel => OutOfFuel
      end
  | AskRemove k =>
      '(t', removed) ← remove t k;
      Ok (if removed : bool then SayRemoved k else SayNotFound k, Some t')
  | AskTest numTests gen =>
      t' ← performTest t numTests gen; Ok (SayPerformance, Some t')
  | AskExit => Ok (SayExiting, None)
  | AskOther => Ok (SayInvalid, Some t)
  end.

(** The loop: turns are taken until one returns from [main] or the
    requests end.  The result lists what was printed and the table, if
    the loop is still running. *)
Fixpoint serve (t : HashTableLinearProbing) (rs : list request)
    : outcome (list report * option HashTableLinearProbing) :=
  match rs with
  | [] => Ok ([], Some t)
  | r :: rs =>
      '(said, next) ← turn t r;
      match next with
      | Some t' => '(more, last) ← serve t' rs; Ok (said :: more, last)
      | None => Ok ([said], None)
      end
  end.

(** A request that is neither the performance test nor the exit. *)
Definition ordinary (r : request) : bool :=
  match r with
  | AskTest _ _ | AskExit => false
  | _ => true
  end.

(** ** Further vocabulary *)

(** Key [k] is stored with value [v]: some live slot holds the pair. *)
Definition stored (t : HashTableLinearProbing) (k : K) (v : V) : Prop :=
  ∃ i e, entry_at t i e ∧ live e = true ∧ key e = k ∧ value e = v.

Definition is_live (t : HashTableLinearProbing) (k : K) : Prop :=
  ∃ v, stored t k v.

(** Key [k] has been written to slot [i], whether the slot is still
    active or not. *)
Definition written (t : HashTableLinearProbing) (i : Z) (k : K) : Prop :=
  ∃ e, entry_at t i e ∧ occupied e = true ∧ key e = k.

End HashTable.

Arguments Entry : clear implicits.
Arguments HashTableLinearProbing : clear implicits.
Arguments operation : clear implicits.
Arguments request : clear implicits.
Arguments report : clear implicits.

(** ** An instance to compute with: string keys, integer values, as in
    [main].  [str_hash] stands in for [std::hash<std::string>], which
    the language leaves to the implementation. *)

Module Sample.

Fixpoint str_hash (s : string) : Z :=
  match s with
  | EmptyString => 7
  | String c s' => Z.of_nat (Ascii.nat_of_ascii c) + 31 * str_hash s'
  end.

Definition table_of (c : Z) (ops : list (operation string Z))
    : HashTableLinearProbing string Z :=
  match new c with
  | Ok t0 => run str_hash ops t0
  | _ => mkTable [] c 0
  end.

(** Tables of capacity 4.  With [str_hash] the keys "a" and "e" have
    home index 2 and "b" has home index 3. *)
Definition fresh : HashTableLinearProbing string Z := table_of 4 [].

Definition one_key : HashTableLinearProbing string Z :=
  table_of 4 [Insert "a"%string 1].

Definition tombstoned : HashTableLinearProbing string Z :=
  table_of 4 [Insert "a"%string 1; Insert "e"%string 2; Remove "a"%string].

Definition two_keys : HashTableLinearProbing string Z :=
  table_of 4 [Insert "a"%string 1; Insert "e"%string 2].

(** Generated pairs for [performTest]: ("a", 0), ("b", 1), ("c", 2), ... *)
Definition letters (i : nat) : string * Z :=
  (String (Ascii.ascii_of_nat (97 + i)) EmptyString, Z.of_nat i).

End Sample.

(** * Properties *)

(** ** Machine arithmetic on indices *)

Lemma to_int_id z : int_min ≤ z ≤ int_max → to_int z = z.
Proof.
  unfold to_int, int_min, int_max. intros Hz.
  rewrite Z.mod_small; lia.
Qed.

Lemma to_size_t_id z : 0 ≤ z < 2 ^ 64 → to_size_t z = z.
Proof. unfold to_size_t. intros Hz. by rewrite Z.mod_small. Qed.

Lemma mod_wrap x c : 0 < c → 0 ≤ x < 2 * c →
  x mod c = if x <? c then x else x - c.
Proof.
  intros Hc Hx. destruct (Z.ltb_spec x c).
  - by rewrite Z.mod_small by lia.
  - symmetry. apply Z.mod_unique_pos with (q := 1); lia.
Qed.

Section Properties.

Context {K V : Type} `{EqDecision K} `{Inhabited K} `{Inhabited V}.
Variable hash : K → Z.

Implicit Types (t : HashTableLinearProbing K V) (k : K) (v : V) (e : Entry K V).

(** *** Indices along a probe path *)

Lemma off_range t h d : well_formed t → 0 ≤ off t h d < capacity t.
Proof. intros [Hc _]. unfold off. apply Z.mod_pos_bound. lia. Qed.

Lemma off_0 t h : well_formed t → 0 ≤ h < capacity t → off t h 0 = h.
Proof. intros _ Hh. unfold off. rewrite Z.add_0_r. by apply Z.mod_small. Qed.

Lemma off_wrap t h d :
  well_formed t → 0 ≤ h < capacity t → 0 ≤ d < capacity t →
  off t h d = if h + d <? capacity t then h + d else h + d - capacity t.
Proof. intros [Hc _] Hh Hd. unfold off. apply mod_wrap; lia. Qed.

Lemma off_inj t h d d' :
  well_formed t → 0 ≤ h < capacity t →
  0 ≤ d < capacity t → 0 ≤ d' < capacity t →
  off t h d = off t h d' → d = d'.
Proof.
  intros Hwf Hh Hd Hd'. rewrite !off_wrap by done.
  repeat case_match; lia.
Qed.

Lemma off_surj t h i :
  well_formed t → 0 ≤ h < capacity t → 0 ≤ i < capacity t →
  ∃ d, 0 ≤ d < capacity t ∧ off t h d = i.
Proof.
  intros Hwf Hh Hi. destruct (Z.le_gt_cases h i).
  - exists (i - h). split; [lia|]. rewrite off_wrap by (done || lia).
    case_match; lia.
  - exists (i - h + capacity t). split; [lia|]. rewrite off_wrap by (done || lia).
    case_match; lia.
Qed.

Lemma home_range t k : well_formed t → 0 ≤ home hash t k < capacity t.
Proof. intros [Hc _]. unfold home. apply Z.mod_pos_bound. lia. Qed.

Lemma hashFunction_home t k :
  well_formed t → hashFunction hash t k = Ok (home hash t k).
Proof.
  intros Hwf. pose proof (home_range t k Hwf) as Hh. destruct Hwf as [Hc _].
  unfold hashFunction, home in *. unfold int_max in Hc.
  rewrite (to_size_t_id (capacity t)) by lia.
  destruct (Z.eqb_spec (capacity t) 0); [lia|].
  simpl. f_equal. apply to_int_id. unfold int_min, int_max. lia.
Qed.

Lemma next_index_off t h d :
  well_formed t → 0 ≤ h < capacity t → 0 ≤ d < capacity t →
  next_index t (off t h d) = Ok (off t h (d + 1)).
Proof.
  intros Hwf Hh Hd. pose proof (off_range t h d Hwf) as Hr.
  destruct Hwf as [Hc Hlen]. unfold next_index.
  destruct (Z.eqb_spec (capacity t) 0); [lia|]. f_equal.
  rewrite to_int_id by (unfold int_min, int_max in *; lia).
  rewrite Z.rem_mod_nonneg by lia.
  unfold off. rewrite Z.add_mod_idemp_l by lia. f_equal. lia.
Qed.

Lemma off_succ_start t h d :
  well_formed t → 0 ≤ h < capacity t → 0 ≤ d < capacity t →
  (off t h (d + 1) =? h) = (d + 1 =? capacity t).
Proof.
  intros Hwf Hh Hd. destruct (Z.eqb_spec (d + 1) (capacity t)) as [Heq|Hne].
  - apply Z.eqb_eq. unfold off. rewrite Heq.
    destruct Hwf as [Hc _].
    replace (h + capacity t) with (h + 1 * capacity t) by lia.
    rewrite Z.mod_add by lia. apply Z.mod_small; lia.
  - apply Z.eqb_neq. intros Heq. apply Hne.
    rewrite <- (off_0 t h Hwf Hh) in Heq at 2.
    apply off_inj in Heq; try done; lia.
Qed.

(** *** Reading and writing slots *)

Lemma slot_Ok t i e : slot (table t) i = Ok e ↔ entry_at t i e.
Proof.
  unfold slot, entry_at. destruct (Z.ltb_spec i 0).
  - split; [done | lia].
  - destruct (table t !! Z.to_nat i) as [e'|].
    + split; [intros [= ->]; done | intros [_ [= ->]]; done].
    + split; [done | intros [_ ?]; done].
Qed.

Lemma slot_in_range t i :
  well_formed t → 0 ≤ i < capacity t → ∃ e, slot (table t) i = Ok e.
Proof.
  intros [_ Hlen] Hi. unfold slot.
  destruct (Z.ltb_spec i 0); [lia|].
  destruct (lookup_lt_is_Some_2 (table t) (Z.to_nat i)) as [e ->]; [lia|].
  by exists e.
Qed.

Lemma entry_at_range t i e :
  well_formed t → entry_at t i e → 0 ≤ i < capacity t.
Proof.
  intros [_ Hlen] [Hi Hl]. apply lookup_lt_Some in Hl. lia.
Qed.

(** *** One iteration of each loop, in terms of path offsets *)

Lemma insert_probe_step fuel t k h d :
  well_formed t → 0 ≤ h < capacity t → 0 ≤ d < capacity t →
  insert_probe (S fuel) t k h (off t h d) =
    e ← slot (table t) (off t h d);
    if blocks k e then
      if d + 1 =? capacity t then Throw overflow_error
      else insert_probe fuel t k h (off t h (d + 1))
    else Ok (off t h d).
Proof.
  intros Hwf Hh Hd. simpl. destruct (slot _ _) as [e| | |]; try done. simpl.
  unfold blocks. destruct (occupied e && _); [|done].
  rewrite next_index_off by done. simpl. by rewrite off_succ_start.
Qed.

Lemma scan_step fuel t k h d :
  well_formed t → 0 ≤ h < capacity t → 0 ≤ d < capacity t →
  scan (S fuel) t k h (off t h d) =
    e ← slot (table t) (off t h d);
    if occupied e then
      if matches k e then Ok (Some (off t h d))
      else if d + 1 =? capacity t then Ok None
      else scan fuel t k h (off t h (d + 1))
    else Ok None.
Proof.
  intros Hwf Hh Hd. simpl. destruct (slot _ _) as [e| | |]; try done. simpl.
  destruct (occupied e); [|done]. unfold matches.
  destruct (bool_decide _ && _); [done|].
  rewrite next_index_off by done. simpl. by rewrite off_succ_start.
Qed.

(** [retrieve] and [remove] run the same search. *)
Lemma retrieve_loop_scan fuel t k s i :
  retrieve_loop fuel t k s i =
    r ← scan fuel t k s i;
    match r with
    | Some j => e ← slot (table t) j; Ok (value e)
    | None => Throw runtime_error
    end.
Proof.
  revert i. induction fuel as [|fuel IH]; intros i; [done|]. simpl.
  destruct (slot (table t) i) as [e| | |] eqn:Hs; try done. simpl.
  destruct (occupied e); [|done].
  destruct (bool_decide _ && _); simpl; [by rewrite Hs|].
  destruct (next_index t i) as [i'| | |]; try done. simpl.
  destruct (i' =? s); [done|]. apply IH.
Qed.

Lemma remove_loop_scan fuel t k s i :
  remove_loop fuel t k s i =
    r ← scan fuel t k s i;
    match r with
    | Some j =>
        e ← slot (table t) j;
        tbl ← store (table t) j (set_active false e);
        Ok (mkTable tbl (capacity t) (to_int (size t - 1)), true)
    | None => Ok (t, false)
    end.
Proof.
  revert i. induction fuel as [|fuel IH]; intros i; [done|]. simpl.
  destruct (slot (table t) i) as [e| | |] eqn:Hs; try done. simpl.
  destruct (occupied e); [|done].
  destruct (bool_decide _ && _); simpl; [by rewrite Hs|].
  destruct (next_index t i) as [i'| | |]; try done. simpl.
  destruct (i' =? s); [done|]. apply IH.
Qed.

(** *** What the probe of [insert] finds *)

Lemma insert_probe_spec fuel t k h d :
  well_formed t → 0 ≤ h < capacity t → 0 ≤ d < capacity t →
  (Z.to_nat (capacity t - d) ≤ fuel)%nat →
  (insert_probe fuel t k h (off t h d) = Throw overflow_error ∧
   blocked_on t k h d (capacity t))
  ∨ (∃ d' e, d ≤ d' < capacity t ∧
       insert_probe fuel t k h (off t h d) = Ok (off t h d') ∧
       entry_at t (off t h d') e ∧ blocks k e = false ∧
       blocked_on t k h d d').
Proof.
  intros Hwf Hh. revert d.
  induction fuel as [|fuel IH]; intros d Hd Hfuel; [lia|].
  rewrite insert_probe_step by done.
  destruct (slot_in_range t (off t h d) Hwf (off_range t h d Hwf)) as [e He].
  rewrite He. simpl. apply slot_Ok in He.
  destruct (blocks k e) eqn:Hb.
  - destruct (Z.eqb_spec (d + 1) (capacity t)) as [Heq|Hne].
    + left. split; [done|]. intros j Hj. assert (j = d) as -> by lia. eauto.
    + destruct (IH (d + 1)) as [[Hr Hall]|(d' & e' & Hd' & Hr & He' & Hb' & Hall)];
        [lia | lia | |].
      * left. split; [done|]. intros j Hj.
        destruct (decide (j = d)) as [->|]; [eauto | apply Hall; lia].
      * right. exists d', e'. split_and!; try done; try lia.
        intros j Hj. destruct (decide (j = d)) as [->|]; [eauto | apply Hall; lia].
  - right. exists d, e. split_and!; try done; try lia. intros j Hj. lia.
Qed.

Lemma insert_probe_fuel fuel fuel' t k h d :
  well_formed t → 0 ≤ h < capacity t → 0 ≤ d < capacity t →
  (Z.to_nat (capacity t - d) ≤ fuel)%nat →
  (Z.to_nat (capacity t - d) ≤ fuel')%nat →
  insert_probe fuel t k h (off t h d) = insert_probe fuel' t k h (off t h d).
Proof.
  intros Hwf Hh. revert fuel' d.
  induction fuel as [|fuel IH]; intros [|fuel'] d Hd Hf Hf'; try lia.
  rewrite !insert_probe_step by done.
  destruct (slot _ _) as [e| | |]; try done. simpl.
  destruct (blocks k e); [|done].
  destruct (Z.eqb_spec (d + 1) (capacity t)); [done|].
  apply IH; lia.
Qed.

(** *** What the search of [retrieve] and [remove] finds *)

Lemma scan_sound fuel t k s i r :
  scan fuel t k s i = Ok (Some r) →
  ∃ e, entry_at t r e ∧ occupied e = true ∧ matches k e = true.
Proof.
  revert i. induction fuel as [|fuel IH]; intros i; [done|]. simpl.
  destruct (slot (table t) i) as [e| | |] eqn:Hs; try done. simpl.
  destruct (occupied e) eqn:Ho; [|done].
  destruct (bool_decide _ && _) eqn:Hm.
  - intros [= <-]. exists e. by rewrite <- slot_Ok.
  - destruct (next_index t i) as [i'| | |]; try done. simpl.
    destruct (i' =? s); [done|]. apply IH.
Qed.

Lemma scan_total fuel t k h d :
  well_formed t → 0 ≤ h < capacity t → 0 ≤ d < capacity t →
  (Z.to_nat (capacity t - d) ≤ fuel)%nat →
  ∃ r, scan fuel t k h (off t h d) = Ok r.
Proof.
  intros Hwf Hh. revert d.
  induction fuel as [|fuel IH]; intros d Hd Hfuel; [lia|].
  rewrite scan_step by done.
  destruct (slot_in_range t (off t h d) Hwf (off_range t h d Hwf)) as [e ->].
  simpl. destruct (occupied e); [|eauto]. destruct (matches k e); [eauto|].
  destruct (Z.eqb_spec (d + 1) (capacity t)); [eauto|]. apply IH; lia.
Qed.

Lemma scan_fuel fuel fuel' t k h d :
  well_formed t → 0 ≤ h < capacity t → 0 ≤ d < capacity t →
  (Z.to_nat (capacity t - d) ≤ fuel)%nat →
  (Z.to_nat (capacity t - d) ≤ fuel')%nat →
  scan fuel t k h (off t h d) = scan fuel' t k h (off t h d).
Proof.
  intros Hwf Hh. revert fuel' d.
  induction fuel as [|fuel IH]; intros [|fuel'] d Hd Hf Hf'; try lia.
  rewrite !scan_step by done.
  destruct (slot _ _) as [e| | |]; try done. simpl.
  destruct (occupied e); [|done]. destruct (matches k e); [done|].
  destruct (Z.eqb_spec (d + 1) (capacity t)); [done|].
  apply IH; lia.
Qed.

Lemma scan_reaches fuel t k h d d' e :
  well_formed t → 0 ≤ h < capacity t → 0 ≤ d → d ≤ d' < capacity t →
  (Z.to_nat (capacity t - d) ≤ fuel)%nat →
  entry_at t (off t h d') e → occupied e = true → matches k e = true →
  passed_on t k h d d' →
  scan fuel t k h (off t h d) = Ok (Some (off t h d')).
Proof.
  intros Hwf Hh Hd0 Hd' Hfuel He Ho Hm. revert d Hd0 Hd' Hfuel.
  induction fuel as [|fuel IH]; intros d Hd0 Hd' Hfuel Hpass; [lia|].
  rewrite scan_step by (done || lia).
  destruct (decide (d = d')) as [->|Hne].
  - apply slot_Ok in He. rewrite He. simpl. by rewrite Ho, Hm.
  - destruct (Hpass d) as (e' & He' & Ho' & Hm'); [lia|].
    apply slot_Ok in He'. rewrite He'. simpl. rewrite Ho', Hm'.
    destruct (Z.eqb_spec (d + 1) (capacity t)); [lia|].
    apply IH; [lia | lia | lia |]. intros j Hj. apply Hpass. lia.
Qed.

(** *** The three operations on a well-formed table *)

Lemma slot_store_eq (tbl : list (Entry K V)) i e x :
  slot tbl i = Ok e → slot (<[Z.to_nat i := x]> tbl) i = Ok x.
Proof.
  unfold slot. destruct (i <? 0); [done|].
  destruct (tbl !! Z.to_nat i) eqn:Hl; [|done]. intros _.
  apply lookup_lt_Some in Hl. by rewrite list_lookup_insert_eq.
Qed.

Lemma store_Ok (tbl : list (Entry K V)) i e x :
  slot tbl i = Ok e → store tbl i x = Ok (<[Z.to_nat i := x]> tbl).
Proof. unfold store. by intros ->. Qed.

Lemma insert_with_spec fuel t k v :
  well_formed t → (probe_bound t ≤ fuel)%nat →
  (insert_with hash fuel t k v = Throw overflow_error ∧
   blocked_on t k (home hash t k) 0 (capacity t))
  ∨ (∃ d e, 0 ≤ d < capacity t ∧
       entry_at t (off t (home hash t k) d) e ∧ blocks k e = false ∧
       blocked_on t k (home hash t k) 0 d ∧
       insert_with hash fuel t k v =
         Ok (mkTable (<[Z.to_nat (off t (home hash t k) d) := Entry_of k v]> (table t))
                     (capacity t) (size t))).
Proof.
  intros Hwf Hfuel. pose proof (home_range t k Hwf) as Hh.
  unfold insert_with. rewrite hashFunction_home by done. simpl.
  destruct (insert_probe_spec fuel t k (home hash t k) 0)
    as [[Hr Hall]|(d & e & Hd & Hr & He & Hb & Hall)];
    try done; try (unfold probe_bound in *; destruct Hwf; lia);
    rewrite off_0 in Hr by done; rewrite Hr; simpl.
  - by left.
  - right. exists d, e. split_and!; try done; try lia.
    apply slot_Ok in He.
    rewrite (store_Ok _ _ e) by done. simpl.
    by rewrite (slot_store_eq _ _ e).
Qed.

Lemma retrieve_with_find fuel t k :
  well_formed t → (probe_bound t ≤ fuel)%nat →
  retrieve_with hash fuel t k =
    r ← find hash t k;
    match r with
    | Some j => e ← slot (table t) j; Ok (value e)
    | None => Throw runtime_error
    end.
Proof.
  intros Hwf Hfuel. pose proof (home_range t k Hwf) as Hh.
  unfold retrieve_with, find. rewrite hashFunction_home by done. simpl.
  rewrite retrieve_loop_scan.
  pose proof (scan_fuel fuel (probe_bound t) t k (home hash t k) 0) as Hs.
  rewrite off_0 in Hs by done. rewrite Hs; try done;
    unfold probe_bound in *; destruct Hwf; lia.
Qed.

Lemma remove_with_find fuel t k :
  well_formed t → (probe_bound t ≤ fuel)%nat →
  remove_with hash fuel t k =
    r ← find hash t k;
    match r with
    | Some j =>
        e ← slot (table t) j;
        tbl ← store (table t) j (set_active false e);
        Ok (mkTable tbl (capacity t) (to_int (size t - 1)), true)
    | None => Ok (t, false)
    end.
Proof.
  intros Hwf Hfuel. pose proof (home_range t k Hwf) as Hh.
  unfold remove_with, find. rewrite hashFunction_home by done. simpl.
  rewrite remove_loop_scan.
  pose proof (scan_fuel fuel (probe_bound t) t k (home hash t k) 0) as Hs.
  rewrite off_0 in Hs by done. rewrite Hs; try done;
    unfold probe_bound in *; destruct Hwf; lia.
Qed.

Lemma find_total t k : well_formed t → ∃ r, find hash t k = Ok r.
Proof.
  intros Hwf. pose proof (home_range t k Hwf) as Hh.
  pose proof (scan_total (probe_bound t) t k (home hash t k) 0) as Hs.
  rewrite off_0 in Hs by done. apply Hs; try done;
    unfold probe_bound; destruct Hwf; lia.
Qed.

Lemma matches_true k e : matches k e = true ↔ key e = k ∧ active e = true.
Proof.
  unfold matches. rewrite andb_true_iff, bool_decide_eq_true. done.
Qed.

Lemma find_sound t k i :
  find hash t k = Ok (Some i) →
  ∃ e, entry_at t i e ∧ live e = true ∧ key e = k.
Proof.
  intros Hf. apply scan_sound in Hf as (e & He & Ho & Hm).
  apply matches_true in Hm as [Hk Ha].
  exists e. unfold live. by rewrite Ho, Ha.
Qed.

Lemma live_true e : live e = true ↔ occupied e = true ∧ active e = true.
Proof. unfold live. apply andb_true_iff. Qed.

Lemma find_complete t k i e :
  invariant hash t → entry_at t i e → live e = true → key e = k →
  find hash t k = Ok (Some i).
Proof.
  intros [Hwf Hpath] He Hl Hk. apply live_true in Hl as [Ho Ha].
  pose proof (home_range t k Hwf) as Hh.
  destruct (off_surj t (home hash t k) i Hwf Hh) as (d & Hd & Hi);
    [by eapply entry_at_range|].
  subst i k. unfold find.
  pose proof (scan_reaches (probe_bound t) t (key e) (home hash t (key e)) 0 d e) as Hs.
  rewrite off_0 in Hs by done. apply Hs; try done; try lia.
  - unfold probe_bound. destruct Hwf. lia.
  - by apply matches_true.
  - intros j Hj. destruct (Hpath d e Hd He Ho j Hj) as (e' & He' & Ho' & Hne).
    exists e'. split_and!; try done. unfold matches.
    by rewrite bool_decide_eq_false_2.
Qed.

(** *** Writing one slot *)

Lemma entry_at_with_slot t i x sz j e e0 :
  entry_at t i e0 →
  entry_at (with_slot t i x sz) j e ↔
    if decide (j = i) then e = x else entry_at t j e.
Proof.
  intros [Hi Hl]. unfold entry_at, with_slot. simpl.
  destruct (decide (j = i)) as [->|Hne].
  - apply lookup_lt_Some in Hl. rewrite list_lookup_insert_eq by done.
    split; [by intros [_ [= ->]] | by intros ->].
  - split; intros [Hj Hl']; (split; [done|]).
    + rewrite list_lookup_insert_ne in Hl' by lia. done.
    + rewrite list_lookup_insert_ne by lia. done.
Qed.

Lemma with_slot_well_formed t i x sz :
  well_formed t → well_formed (with_slot t i x sz).
Proof.
  intros [Hc Hlen]. split; [done|]. simpl. by rewrite length_insert.
Qed.

(** Overwriting a slot without changing its key and its [occupied]
    flag keeps the probe paths. *)
Lemma probe_path_same_shape t i e0 x sz :
  probe_path hash t → entry_at t i e0 →
  key x = key e0 → occupied x = occupied e0 →
  probe_path hash (with_slot t i x sz).
Proof.
  intros Hpath Hi Hk Ho d e Hd He Hoe j Hj.
  change (off (with_slot t i x sz)) with (off t) in *.
  change (home hash (with_slot t i x sz)) with (home hash t) in *.
  simpl in Hd.
  assert (∃ e1, entry_at t (off t (home hash t (key e)) d) e1 ∧
                key e1 = key e ∧ occupied e1 = true) as (e1 & He1 & Hk1 & Ho1).
  { rewrite (entry_at_with_slot _ _ _ _ _ _ _ Hi) in He.
    destruct (decide _) as [Heq|Hne]; [|by exists e].
    subst e. exists e0. rewrite Heq. split_and!; [done | done | congruence]. }
  rewrite <- Hk1 in *.
  destruct (Hpath d e1 Hd He1 Ho1 j Hj) as (e2 & He2 & Ho2 & Hne2).
  destruct (decide (off t (home hash t (key e1)) j = i)) as [Heq|Hne].
  - exists x. rewrite (entry_at_with_slot _ _ _ _ _ _ _ Hi).
    rewrite decide_True by done.
    rewrite Heq in He2. destruct Hi as [_ Hi], He2 as [_ He2].
    assert (e2 = e0) as -> by congruence.
    split_and!; [done | congruence | congruence].
  - exists e2. rewrite (entry_at_with_slot _ _ _ _ _ _ _ Hi).
    by rewrite decide_False by done.
Qed.

(** Filling a slot that was never written, at the end of a blocked
    stretch of the key's probe path, keeps the probe paths. *)
Lemma probe_path_fill t k v d e0 sz :
  well_formed t → probe_path hash t → 0 ≤ d < capacity t →
  entry_at t (off t (home hash t k) d) e0 → occupied e0 = false →
  blocked_on t k (home hash t k) 0 d →
  probe_path hash (with_slot t (off t (home hash t k) d) (Entry_of k v) sz).
Proof.
  intros Hwf Hpath Hd Hi Ho Hall d1 e Hd1 He Hoe j Hj.
  set (i := off t (home hash t k) d) in *.
  change (off (with_slot t i (Entry_of k v) sz)) with (off t) in *.
  change (home hash (with_slot t i (Entry_of k v) sz)) with (home hash t) in *.
  simpl in Hd1.
  assert (∀ n e', entry_at t n e' → occupied e' = true →
            entry_at (with_slot t i (Entry_of k v) sz) n e') as Hkeep.
  { intros n e' Hn Ho'. rewrite (entry_at_with_slot _ _ _ _ _ _ _ Hi).
    destruct (decide (n = i)) as [->|]; [|done].
    destruct Hi as [_ Hi], Hn as [_ Hn]. congruence. }
  rewrite (entry_at_with_slot _ _ _ _ _ _ _ Hi) in He.
  destruct (decide _) as [Heq|Hne].
  - subst e. simpl in *.
    apply off_inj in Heq; try done; [|by apply home_range]. subst d1.
    destruct (Hall j Hj) as (e' & He' & Hb).
    unfold blocks in Hb. apply andb_true_iff in Hb as [Ho' Hk'].
    apply negb_true_iff, bool_decide_eq_false in Hk'.
    exists e'. split_and!; [by apply Hkeep | done | done].
  - destruct (Hpath d1 e Hd1 He Hoe j Hj) as (e' & He' & Ho' & Hk').
    exists e'. split_and!; [by apply Hkeep | done | done].
Qed.

Lemma blocks_false k e :
  blocks k e = false ↔ occupied e = false ∨ key e = k.
Proof.
  unfold blocks. rewrite andb_false_iff, negb_false_iff, bool_decide_eq_true. done.
Qed.

(** *** The invariant of reachable tables *)

Lemma new_invariant c t0 : 0 < c ≤ int_max → new c = Ok t0 → invariant hash t0.
Proof.
  intros Hc. unfold new. destruct (Z.ltb_spec c 0); [lia|]. intros [= <-].
  split.
  - split; [done|]. simpl. rewrite length_replicate. lia.
  - intros d e _ [_ He] Ho. simpl in He.
    apply lookup_replicate_1 in He as [-> _]. done.
Qed.

Lemma insert_invariant t k v t' :
  invariant hash t → insert hash t k v = Ok t' → invariant hash t'.
Proof.
  intros [Hwf Hpath] Hins.
  destruct (insert_with_spec (probe_bound t) t k v Hwf)
    as [[Hr _]|(d & e & Hd & He & Hb & Hall & Hr)]; [lia | |];
    unfold insert in Hins; rewrite Hr in Hins; [done|].
  injection Hins as <-. split.
  - by apply (with_slot_well_formed t).
  - apply blocks_false in Hb as [Ho|Hk].
    + by apply (probe_path_fill t k v d e).
    + destruct (occupied e) eqn:Ho.
      * by apply (probe_path_same_shape t _ e).
      * by apply (probe_path_fill t k v d e).
Qed.

Lemma remove_invariant t k t' b :
  invariant hash t → remove hash t k = Ok (t', b) → invariant hash t'.
Proof.
  intros [Hwf Hpath]. unfold remove.
  rewrite remove_with_find by done.
  destruct (find_total t k Hwf) as [[i|] Hf]; rewrite Hf; simpl.
  - apply find_sound in Hf as (e & He & _).
    pose proof He as Hs. apply slot_Ok in Hs. rewrite Hs. simpl.
    rewrite (store_Ok _ _ e) by done. simpl. intros [= <- <-]. split.
    + by apply (with_slot_well_formed t).
    + by apply (probe_path_same_shape t _ e).
  - by intros [= <- <-].
Qed.

Lemma apply_invariant t o : invariant hash t → invariant hash (apply hash t o).
Proof.
  intros Hinv. destruct o as [k v|k|k]; simpl; [|done|].
  - destruct (insert hash t k v) eqn:Hi; try done. by eapply insert_invariant.
  - destruct (remove hash t k) as [[t' b]| | |] eqn:Hr; try done.
    by eapply remove_invariant.
Qed.

Lemma run_invariant ops t : invariant hash t → invariant hash (run hash ops t).
Proof.
  revert t. induction ops as [|o ops IH]; intros t Hinv; [done|].
  simpl. apply IH. by apply apply_invariant.
Qed.

Lemma reachable_invariant t : reachable hash t → invariant hash t.
Proof.
  intros (c & t0 & ops & Hc & Hnew & ->).
  apply run_invariant. by eapply new_invariant.
Qed.

(** Under the invariant a key is written in at most one slot. *)
Lemma invariant_one_slot t i j ei ej :
  invariant hash t → entry_at t i ei → entry_at t j ej →
  occupied ei = true → occupied ej = true → key ei = key ej → i = j.
Proof.
  intros [Hwf Hpath] Hi Hj Hoi Hoj Hk.
  pose proof (home_range t (key ei) Hwf) as Hh.
  destruct (off_surj t (home hash t (key ei)) i Hwf Hh) as (di & Hdi & Hi');
    [by eapply entry_at_range|].
  destruct (off_surj t (home hash t (key ei)) j Hwf Hh) as (dj & Hdj & Hj');
    [by eapply entry_at_range|].
  subst i j.
  destruct (Z.lt_trichotomy di dj) as [Hlt|[->|Hlt]]; [|done|].
  - rewrite Hk in Hj.
    destruct (Hpath dj ej Hdj Hj Hoj di) as (e' & He' & _ & Hne); [lia|].
    rewrite <- Hk in He'. destruct Hi as [_ Hi], He' as [_ He']. congruence.
  - destruct (Hpath di ei Hdi Hi Hoi dj) as (e' & He' & _ & Hne); [lia|].
    destruct Hj as [_ Hj], He' as [_ He']. congruence.
Qed.

(** *** Consequences for the three operations *)

Lemma insert_Ok t k v t' :
  well_formed t → insert hash t k v = Ok t' →
  ∃ d e, 0 ≤ d < capacity t ∧
    entry_at t (off t (home hash t k) d) e ∧ blocks k e = false ∧
    blocked_on t k (home hash t k) 0 d ∧
    t' = with_slot t (off t (home hash t k) d) (Entry_of k v) (size t).
Proof.
  intros Hwf Hins.
  destruct (insert_with_spec (probe_bound t) t k v Hwf)
    as [[Hr _]|(d & e & Hd & He & Hb & Hall & Hr)]; [lia | |];
    unfold insert in Hins; rewrite Hr in Hins; [done|].
  injection Hins as <-. by exists d, e.
Qed.

(** [insert] leaves [size] as it was, whatever slot it writes. *)
Lemma insert_size t k v t' :
  well_formed t → insert hash t k v = Ok t' → size t' = size t.
Proof.
  intros Hwf Hins.
  by destruct (insert_Ok t k v t' Hwf Hins) as (d & e & _ & _ & _ & _ & ->).
Qed.

Lemma insert_entry t k v t' :
  well_formed t → insert hash t k v = Ok t' →
  ∃ i, entry_at t' i (Entry_of k v).
Proof.
  intros Hwf Hins.
  destruct (insert_Ok t k v t' Hwf Hins) as (d & e & _ & He & _ & _ & ->).
  eexists. rewrite (entry_at_with_slot _ _ _ _ _ _ _ He).
  by rewrite decide_True.
Qed.

Lemma insert_then_retrieve t k v t' :
  well_formed t → insert hash t k v = Ok t' → retrieve hash t' k = Ok v.
Proof.
  intros Hwf Hins. pose proof (home_range t k Hwf) as Hh.
  destruct (insert_Ok t k v t' Hwf Hins) as (d & e & Hd & He & Hb & Hall & ->).
  set (i := off t (home hash t k) d) in *.
  set (t' := with_slot t i (Entry_of k v) (size t)).
  assert (well_formed t') as Hwf' by by apply with_slot_well_formed.
  assert (entry_at t' i (Entry_of k v)) as Hnew.
  { unfold t'. rewrite (entry_at_with_slot _ _ _ _ _ _ _ He). by rewrite decide_True. }
  assert (find hash t' k = Ok (Some i)) as Hfind.
  { pose proof (scan_reaches (probe_bound t') t' k (home hash t' k) 0 d (Entry_of k v)) as Hs.
    rewrite off_0 in Hs by done. apply Hs; try done; try lia.
    - unfold probe_bound. destruct Hwf'. lia.
    - unfold matches. simpl. by rewrite bool_decide_eq_true_2.
    - intros j Hj. destruct (Hall j Hj) as (e' & He' & Hb').
      unfold blocks in Hb'. apply andb_true_iff in Hb' as [Ho' Hk'].
      apply negb_true_iff in Hk'.
      exists e'. split_and!; [|done|by unfold matches; rewrite Hk'].
      change (off t') with (off t). change (home hash t') with (home hash t).
      unfold t'. rewrite (entry_at_with_slot _ _ _ _ _ _ _ He).
      rewrite decide_False; [done|]. intros Heq.
      apply off_inj in Heq; try done; lia. }
  unfold retrieve. rewrite retrieve_with_find by done. rewrite Hfind.
  apply slot_Ok in Hnew. clearbody t'. simpl. by rewrite Hnew.
Qed.

Lemma find_None t k :
  invariant hash t →
  (∀ i e, entry_at t i e → live e = true → key e ≠ k) →
  find hash t k = Ok None.
Proof.
  intros [Hwf _] Hno. destruct (find_total t k Hwf) as [[i|] Hf]; [|done].
  apply find_sound in Hf as (e & He & Hl & Hk). by destruct (Hno i e).
Qed.

Lemma remove_hit t k i e :
  invariant hash t → entry_at t i e → live e = true → key e = k →
  remove hash t k =
    Ok (with_slot t i (set_active false e) (to_int (size t - 1)), true).
Proof.
  intros Hinv He Hl Hk. unfold remove.
  rewrite remove_with_find by (done || apply Hinv).
  rewrite (find_complete t k i e) by done. simpl.
  apply slot_Ok in He. rewrite He. simpl.
  by rewrite (store_Ok _ _ e).
Qed.

Lemma remove_miss t k :
  invariant hash t →
  (∀ i e, entry_at t i e → live e = true → key e ≠ k) →
  remove hash t k = Ok (t, false).
Proof.
  intros Hinv Hno. unfold remove.
  rewrite remove_with_find by (done || apply Hinv).
  by rewrite find_None.
Qed.

Lemma retrieve_miss t k :
  invariant hash t →
  (∀ i e, entry_at t i e → live e = true → key e ≠ k) →
  retrieve hash t k = Throw runtime_error.
Proof.
  intros Hinv Hno. unfold retrieve.
  rewrite retrieve_with_find by (done || apply Hinv).
  by rewrite find_None.
Qed.

(** After a hit, [remove] leaves no live slot with that key. *)
Lemma removed_key_gone t k i e sz j e' :
  invariant hash t → entry_at t i e → live e = true → key e = k →
  entry_at (with_slot t i (set_active false e) sz) j e' →
  live e' = true → key e' ≠ k.
Proof.
  intros Hinv He Hl Hk He' Hl' Hk'.
  rewrite (entry_at_with_slot _ _ _ _ _ _ _ He) in He'.
  destruct (decide (j = i)) as [->|Hne].
  - subst e'. unfold live in Hl'. simpl in Hl'. by rewrite andb_false_r in Hl'.
  - apply Hne. apply live_true in Hl as [Ho _], Hl' as [Ho' _].
    apply (invariant_one_slot t j i e' e); try done. congruence.
Qed.

(** *** Counting the slots that satisfy a predicate *)

Lemma filter_none {A} (P : A → Prop) `{∀ x, Decision (P x)} (l : list A) :
  (∀ x, x ∈ l → ¬ P x) → filter P l = [].
Proof.
  induction l as [|x l IH]; intros Hno; [done|].
  rewrite filter_cons_False by (apply Hno; left).
  apply IH. intros y Hy. apply Hno. by right.
Qed.

Lemma filter_one {A} (P : A → Prop) `{∀ x, Decision (P x)} (l : list A) i x :
  l !! i = Some x → P x →
  (∀ j y, l !! j = Some y → P y → j = i) →
  length (filter P l) = 1%nat.
Proof.
  intros Hi HP Huniq. rewrite <- (take_drop_middle l i x Hi).
  rewrite filter_app, filter_cons_True by done.
  rewrite !filter_none; [done| |].
  - intros y Hy HPy. apply list_elem_of_lookup in Hy as [j Hj].
    rewrite lookup_drop in Hj. apply Huniq in Hj; [lia | done].
  - intros y Hy HPy. apply list_elem_of_lookup in Hy as [j Hj].
    apply lookup_take_Some in Hj as [Hj Hlt].
    apply Huniq in Hj; [lia | done].
Qed.

(** *** Induction over the reachable tables *)

Lemma run_snoc ops o t : run hash (ops ++ [o]) t = apply hash (run hash ops t) o.
Proof. unfold run. by rewrite fold_left_app. Qed.

Lemma reachable_apply t o : reachable hash t → reachable hash (apply hash t o).
Proof.
  intros (c & t0 & ops & Hc & Hnew & ->).
  exists c, t0, (ops ++ [o]). by rewrite run_snoc.
Qed.

Lemma reachable_insert t k v t' :
  reachable hash t → insert hash t k v = Ok t' → reachable hash t'.
Proof.
  intros Hr Hins. pose proof (reachable_apply t (Insert k v) Hr) as Hr'.
  simpl in Hr'. by rewrite Hins in Hr'.
Qed.

Lemma reachable_remove t k t' b :
  reachable hash t → remove hash t k = Ok (t', b) → reachable hash t'.
Proof.
  intros Hr Hrem. pose proof (reachable_apply t (Remove k) Hr) as Hr'.
  simpl in Hr'. by rewrite Hrem in Hr'.
Qed.

Lemma to_int_range z : int_min ≤ to_int z ≤ int_max.
Proof.
  unfold to_int, int_min, int_max.
  pose proof (Z.mod_pos_bound (z + 2 ^ 31) (2 ^ 32)). lia.
Qed.

Lemma remove_outcome t k :
  well_formed t →
  remove hash t k = Ok (t, false)
  ∨ ∃ i e, entry_at t i e ∧ live e = true ∧ key e = k ∧
      remove hash t k =
        Ok (with_slot t i (set_active false e) (to_int (size t - 1)), true).
Proof.
  intros Hwf. unfold remove. rewrite remove_with_find by done.
  destruct (find_total t k Hwf) as [[i|] Hf]; rewrite Hf; simpl; [|by left].
  apply find_sound in Hf as (e & He & Hl & Hk). right. exists i, e.
  split_and!; try done. apply slot_Ok in He. rewrite He. simpl.
  by rewrite (store_Ok _ _ e).
Qed.

Lemma retrieve_outcome t k :
  well_formed t →
  retrieve hash t k = Throw runtime_error
  ∨ ∃ i e, entry_at t i e ∧ live e = true ∧ key e = k ∧
      retrieve hash t k = Ok (value e).
Proof.
  intros Hwf. unfold retrieve. rewrite retrieve_with_find by done.
  destruct (find_total t k Hwf) as [[i|] Hf]; rewrite Hf; simpl; [|by left].
  apply find_sound in Hf as (e & He & Hl & Hk). right. exists i, e.
  split_and!; try done. apply slot_Ok in He. by rewrite He.
Qed.

Lemma insert_outcome t k v :
  well_formed t →
  insert hash t k v = Throw overflow_error ∨ ∃ t', insert hash t k v = Ok t'.
Proof.
  intros Hwf.
  destruct (insert_with_spec (probe_bound t) t k v Hwf)
    as [[Hr _]|(d & e & _ & _ & _ & _ & Hr)]; [lia | by left | right; eauto].
Qed.

(** [size] stays an [int]. *)
Lemma reachable_size_range t : reachable hash t → int_min ≤ size t ≤ int_max.
Proof.
  intros (c & t0 & ops & Hc & Hnew & ->).
  pose proof (new_invariant c t0 Hc Hnew) as Hinv.
  assert (int_min ≤ size t0 ≤ int_max) as Hsz.
  { unfold new in Hnew. destruct (c <? 0); [done|]. injection Hnew as <-.
    unfold int_min, int_max. simpl. lia. }
  clear Hnew. revert t0 Hinv Hsz.
  induction ops as [|o ops IH]; intros t0 Hinv Hsz; [done|].
  simpl. apply IH; [by apply apply_invariant|].
  destruct o as [k v|k|k]; simpl; [|done|].
  - destruct (insert hash t0 k v) as [t'| | |] eqn:Hins; try done.
    by rewrite (insert_size t0 k v t') by (done || apply Hinv).
  - destruct (remove_outcome t0 k) as [->|(i & e & _ & _ & _ & ->)];
      [apply Hinv | done |].
    simpl. apply to_int_range.
Qed.

(** ** The claims *)

(** C3.  When [insert(k, v)] returns, a [retrieve(k)] that follows at
    once returns [v]. *)
Theorem insert_retrieve_roundtrip t k v t' :
  well_formed t → insert hash t k v = Ok t' → retrieve hash t' k = Ok v.
Proof. apply insert_then_retrieve. Qed.

(** C5.  After an [insert(k, v)] that returns, [remove(k)] returns
    true; then [retrieve(k)] throws "Key not found" and a second
    [remove(k)] returns false. *)
Theorem insert_remove_retrieve t k v t1 :
  reachable hash t → insert hash t k v = Ok t1 →
  ∃ t2, remove hash t1 k = Ok (t2, true) ∧
        retrieve hash t2 k = Throw runtime_error ∧
        remove hash t2 k = Ok (t2, false).
Proof.
  intros Hr Hins. pose proof (reachable_invariant t Hr) as Hinv.
  pose proof (insert_invariant t k v t1 Hinv Hins) as Hinv1.
  destruct (insert_entry t k v t1) as [i Hi]; [apply Hinv | done |].
  pose proof (remove_hit t1 k i (Entry_of k v) Hinv1 Hi eq_refl eq_refl) as Hrem.
  eexists. split; [exact Hrem|].
  pose proof (remove_invariant t1 k _ _ Hinv1 Hrem) as Hinv2.
  split.
  - apply retrieve_miss; [done|]. intros j e' He' Hl'.
    by eapply (removed_key_gone t1 k i (Entry_of k v)).
  - apply remove_miss; [done|]. intros j e' He' Hl'.
    by eapply (removed_key_gone t1 k i (Entry_of k v)).
Qed.

(** C6.  Inserting [(k, v1)] and then [(k, v2)] leaves exactly one live
    slot that holds [k], and [retrieve(k)] returns [v2]. *)
Theorem insert_twice_updates t k v1 v2 t1 :
  reachable hash t → insert hash t k v1 = Ok t1 →
  ∃ t2, insert hash t1 k v2 = Ok t2 ∧
        live_count_of k t2 = 1 ∧
        retrieve hash t2 k = Ok v2.
Proof.
  intros Hr Hins1. pose proof (reachable_invariant t Hr) as Hinv.
  pose proof (insert_invariant t k v1 t1 Hinv Hins1) as Hinv1.
  destruct (insert_entry t k v1 t1) as [i Hi]; [apply Hinv | done |].
  assert (∃ t2, insert hash t1 k v2 = Ok t2) as [t2 Hins2].
  { destruct Hinv1 as [Hwf1 _]. pose proof (home_range t1 k Hwf1) as Hh.
    destruct (insert_with_spec (probe_bound t1) t1 k v2 Hwf1)
      as [[_ Hall]|(d & e & _ & _ & _ & _ & Hok)]; [lia | | by eexists].
    destruct (off_surj t1 (home hash t1 k) i Hwf1 Hh) as (d & Hd & Hoff);
      [by eapply entry_at_range|].
    destruct (Hall d Hd) as (e' & He' & Hb). rewrite Hoff in He'.
    destruct Hi as [_ Hi], He' as [_ He'].
    assert (e' = Entry_of k v1) as -> by congruence.
    unfold blocks in Hb. simpl in Hb. by rewrite bool_decide_eq_true_2 in Hb. }
  exists t2. split; [done|].
  pose proof (insert_invariant t1 k v2 t2 Hinv1 Hins2) as Hinv2.
  split; [|apply (insert_then_retrieve t1); [apply Hinv1 | done]].
  destruct (insert_entry t1 k v2 t2) as [i2 [Hi2 Hl2]]; [apply Hinv1 | done |].
  unfold live_count_of.
  rewrite (filter_one _ (table t2) (Z.to_nat i2) (Entry_of k v2)); try done.
  intros j y Hj [Hly Hky]. apply live_true in Hly as [Hoy _].
  assert (Z.of_nat j = i2) as <-; [|lia].
  apply (invariant_one_slot t2 _ _ y (Entry_of k v2) Hinv2); try done.
  split; [lia|]. by rewrite Nat2Z.id.
Qed.

(** C7.  I2: in the table as constructed, and after any sequence of
    [insert], [retrieve] and [remove] calls, no two live slots hold the
    same key. *)
Theorem live_keys_distinct c t0 ops :
  0 < c ≤ int_max → new c = Ok t0 → distinct_live_keys (run hash ops t0).
Proof.
  intros Hc Hnew i j ei ej Hi Hj Hli Hlj Hk.
  apply live_true in Hli as [Hoi _], Hlj as [Hoj _].
  eapply invariant_one_slot; try done.
  apply run_invariant. by eapply new_invariant.
Qed.

(** C8.  [remove(k)] always returns.  Without a live slot holding [k]
    it returns false and the table is as before.  With one, it returns
    true, that slot's [active] flag goes from true to false, no other
    slot and no other field of the slot changes, and [size] is
    decremented. *)
Theorem remove_reports_by_bool t k :
  reachable hash t →
  (∃ t' b, remove hash t k = Ok (t', b)) ∧
  ((∀ i e, entry_at t i e → live e = true → key e ≠ k) →
     remove hash t k = Ok (t, false)) ∧
  (∀ i e, entry_at t i e → live e = true → key e = k →
     ∃ t', remove hash t k = Ok (t', true) ∧
           active e = true ∧
           table t' = <[Z.to_nat i := set_active false e]> (table t) ∧
           capacity t' = capacity t ∧
           size t' = to_int (size t - 1) ∧
           (int_min < size t → size t' = size t - 1)).
Proof.
  intros Hr. pose proof (reachable_invariant t Hr) as Hinv.
  split_and!.
  - destruct (remove_outcome t k) as [->|(i & e & _ & _ & _ & ->)];
      [apply Hinv | eauto | eauto].
  - by apply remove_miss.
  - intros i e He Hl Hk. eexists. split; [by apply (remove_hit t k i e)|].
    simpl. split_and!; try done.
    + by apply live_true in Hl as [_ ?].
    + intros Hlo. apply to_int_id.
      pose proof (reachable_size_range t Hr). lia.
Qed.

(** C9.  On a table built with a positive capacity the home index and
    every next index of a probe lie in [[0, capacity)] and name a slot
    of the vector, and no call reads or writes outside the vector (nor
    runs into any other undefined behaviour). *)
Theorem probe_indices_in_bounds t k v :
  well_formed t →
  (∃ h, hashFunction hash t k = Ok h ∧ 0 ≤ h < capacity t ∧
        ∃ e, slot (table t) h = Ok e) ∧
  (∀ i, 0 ≤ i < capacity t →
     ∃ i', next_index t i = Ok i' ∧ 0 ≤ i' < capacity t ∧
           ∃ e, slot (table t) i' = Ok e) ∧
  (∀ u, insert hash t k v ≠ Undefined u) ∧
  (∀ u, retrieve hash t k ≠ Undefined u) ∧
  (∀ u, remove hash t k ≠ Undefined u).
Proof.
  intros Hwf. split_and!.
  - exists (home hash t k). pose proof (home_range t k Hwf).
    split_and!; [by apply hashFunction_home | lia | lia | by apply slot_in_range].
  - intros i Hi. exists (off t i 1).
    pose proof (next_index_off t i 0 Hwf Hi) as Hn.
    rewrite off_0 in Hn by done.
    pose proof (off_range t i 1 Hwf).
    split_and!; [apply Hn; destruct Hwf; lia | lia | lia | by apply slot_in_range].
  - intros u. by destruct (insert_outcome t k v Hwf) as [->|[t' ->]].
  - intros u. by destruct (retrieve_outcome t k Hwf) as [->|(i & e & _ & _ & _ & ->)].
  - intros u. by destruct (remove_outcome t k Hwf) as [->|(i & e & _ & _ & _ & ->)].
Qed.

(** C10.  On a table built with a positive capacity each of the three
    calls ends within [capacity] slot examinations: a budget of
    [capacity] iterations is never used up, a larger one changes
    nothing, and the call returns or throws its own exception. *)
Theorem probes_terminate t k v fuel :
  well_formed t → (Z.to_nat (capacity t) ≤ fuel)%nat →
  (insert_with hash fuel t k v = insert_with hash (Z.to_nat (capacity t)) t k v ∧
   (insert_with hash fuel t k v = Throw overflow_error ∨
    ∃ t', insert_with hash fuel t k v = Ok t')) ∧
  (retrieve_with hash fuel t k = retrieve_with hash (Z.to_nat (capacity t)) t k ∧
   (retrieve_with hash fuel t k = Throw runtime_error ∨
    ∃ x, retrieve_with hash fuel t k = Ok x)) ∧
  (remove_with hash fuel t k = remove_with hash (Z.to_nat (capacity t)) t k ∧
   ∃ t' b, remove_with hash fuel t k = Ok (t', b)).
Proof.
  intros Hwf Hfuel. pose proof (home_range t k Hwf) as Hh.
  change (Z.to_nat (capacity t)) with (probe_bound t) in *.
  assert (insert_with hash fuel t k v = insert hash t k v) as Hi.
  { unfold insert, insert_with. rewrite hashFunction_home by done. simpl.
    pose proof (insert_probe_fuel fuel (probe_bound t) t k (home hash t k) 0) as Hp.
    rewrite off_0 in Hp by done. rewrite Hp; try done;
      unfold probe_bound in *; destruct Hwf; lia. }
  assert (retrieve_with hash fuel t k = retrieve hash t k) as Hr.
  { unfold retrieve. by rewrite !retrieve_with_find. }
  assert (remove_with hash fuel t k = remove hash t k) as Hd.
  { unfold remove. by rewrite !remove_with_find. }
  rewrite Hi, Hr, Hd. split_and!; try done.
  - apply insert_outcome, Hwf.
  - destruct (retrieve_outcome t k Hwf) as [->|(i & e & _ & _ & _ & ->)]; eauto.
  - destruct (remove_outcome t k Hwf) as [->|(i & e & _ & _ & _ & ->)]; eauto.
Qed.

(** C4.  [insert] can throw "Hash table is full" while fewer than
    [capacity] slots are live: a deactivated slot that holds another
    key keeps the probe going all the way round.  The table of capacity
    1 after [insert(a, v)] and [remove(a)] is such a table for every
    key [b] other than [a]. *)
Theorem table_full_below_capacity (a b : K) (v : V) :
  a ≠ b →
  ∃ t, reachable hash t ∧
       insert hash t b v = Throw overflow_error ∧
       live_count t < capacity t ∧ size t < capacity t ∧
       ∃ i e, entry_at t i e ∧ occupied e = true ∧ active e = false ∧ key e ≠ b.
Proof.
  intros Hab.
  assert (∀ t k, capacity t = 1 → hashFunction hash t k = Ok 0) as Hh.
  { intros t k Hc. unfold hashFunction. rewrite Hc.
    change (to_size_t 1) with 1. by rewrite Z.mod_1_r. }
  set (t0 := mkTable [Entry_default] 1 0 : HashTableLinearProbing K V).
  set (t1 := mkTable [Entry_of a v] 1 0).
  set (t2 := mkTable [set_active false (Entry_of a v)] 1 (-1)).
  assert (insert hash t0 a v = Ok t1) as H1.
  { unfold insert, insert_with. by rewrite Hh. }
  assert (remove hash t1 a = Ok (t2, true)) as H2.
  { unfold remove, remove_with. rewrite Hh by done. simpl.
    by rewrite bool_decide_eq_true_2. }
  exists t2. split_and!.
  - exists 1, t0, [Insert a v; Remove a]. split_and!; [done | done | done |].
    simpl. rewrite H1. unfold apply. by rewrite H2.
  - unfold insert, insert_with. rewrite Hh by done. simpl.
    by rewrite bool_decide_eq_false_2.
  - done.
  - done.
  - exists 0, (set_active false (Entry_of a v)). by split_and!.
Qed.

(** ** Lookups in terms of what is stored *)

Lemma retrieve_stored t k v :
  invariant hash t → stored t k v → retrieve hash t k = Ok v.
Proof.
  intros Hinv (i & e & He & Hl & Hk & <-). unfold retrieve.
  rewrite retrieve_with_find by (done || apply Hinv).
  rewrite (find_complete t k i e) by done. simpl.
  apply slot_Ok in He. by rewrite He.
Qed.

Lemma retrieve_Ok_stored t k v :
  well_formed t → retrieve hash t k = Ok v → stored t k v.
Proof.
  intros Hwf Hr.
  destruct (retrieve_outcome t k Hwf) as [Ht|(i & e & He & Hl & Hk & Ho)];
    rewrite Hr in *; [done|].
  injection Ho as ->. by exists i, e.
Qed.

Lemma retrieve_same_stored t t' k :
  invariant hash t → invariant hash t' →
  (∀ v, stored t' k v ↔ stored t k v) →
  retrieve hash t' k = retrieve hash t k.
Proof.
  intros Hinv Hinv' Hst.
  destruct (retrieve_outcome t k (proj1 Hinv)) as [Ht|(i & e & He & Hl & Hk & Ho)].
  - rewrite Ht.
    destruct (retrieve_outcome t' k (proj1 Hinv')) as [Ht'|(i & e & He & Hl & Hk & Ho)];
      [done|].
    assert (stored t k (value e)) as Hs by (apply Hst; by exists i, e).
    apply (retrieve_stored t k _ Hinv) in Hs. congruence.
  - rewrite Ho. apply retrieve_stored; [done|]. apply Hst. by exists i, e.
Qed.

Lemma insert_stored_same t k v t' :
  well_formed t → insert hash t k v = Ok t' → stored t' k v.
Proof.
  intros Hwf Hins. destruct (insert_entry t k v t' Hwf Hins) as [i Hi].
  by exists i, (Entry_of k v).
Qed.

Lemma insert_stored_other t k v t' k' v' :
  well_formed t → insert hash t k v = Ok t' → k' ≠ k →
  stored t' k' v' ↔ stored t k' v'.
Proof.
  intros Hwf Hins Hne.
  destruct (insert_Ok t k v t' Hwf Hins) as (d & e0 & _ & He0 & Hb & _ & ->).
  apply blocks_false in Hb.
  split; intros (j & e & He & Hl & Hk & Hv); exists j, e; (split_and!; try done).
  - rewrite (entry_at_with_slot _ _ _ _ _ _ _ He0) in He.
    destruct (decide _) as [_|_]; [|done]. subst e. by destruct Hne.
  - rewrite (entry_at_with_slot _ _ _ _ _ _ _ He0).
    destruct (decide _) as [->|_]; [|done].
    destruct He0 as [_ He0], He as [_ He]. assert (e = e0) as -> by congruence.
    apply live_true in Hl as [Ho _]. destruct Hb; congruence.
Qed.

Lemma remove_cases t k t' b :
  invariant hash t → remove hash t k = Ok (t', b) →
  (b = false ∧ t' = t ∧ ¬ is_live t k)
  ∨ (b = true ∧ ∃ i e, entry_at t i e ∧ live e = true ∧ key e = k ∧
       t' = with_slot t i (set_active false e) (to_int (size t - 1))).
Proof.
  intros Hinv Hrem.
  destruct (remove_outcome t k (proj1 Hinv)) as [Hr|(i & e & He & Hl & Hk & Hr)];
    rewrite Hr in Hrem; injection Hrem as <- <-.
  - left. split_and!; try done. intros (v & i & e & He & Hl & Hk & _).
    rewrite (remove_hit t k i e) in Hr by done. done.
  - right. split; [done|]. by exists i, e.
Qed.

Lemma remove_stored_other t k t' b k' v' :
  invariant hash t → remove hash t k = Ok (t', b) → k' ≠ k →
  stored t' k' v' ↔ stored t k' v'.
Proof.
  intros Hinv Hrem Hne.
  destruct (remove_cases t k t' b Hinv Hrem)
    as [(_ & -> & _)|(_ & i & e0 & He0 & _ & Hk0 & ->)]; [done|].
  split; intros (j & e & He & Hl & Hk & Hv); exists j, e; (split_and!; try done).
  - rewrite (entry_at_with_slot _ _ _ _ _ _ _ He0) in He.
    destruct (decide _) as [_|_]; [|done]. subst e. simpl in Hk. congruence.
  - rewrite (entry_at_with_slot _ _ _ _ _ _ _ He0).
    destruct (decide _) as [->|_]; [|done].
    destruct He0 as [_ He0], He as [_ He]. congruence.
Qed.

Lemma remove_not_live t k t' b :
  invariant hash t → remove hash t k = Ok (t', b) → ¬ is_live t' k.
Proof.
  intros Hinv Hrem.
  destruct (remove_cases t k t' b Hinv Hrem)
    as [(_ & -> & Hno)|(_ & i & e0 & He0 & Hl0 & Hk0 & ->)]; [done|].
  intros (v & j & e & He & Hl & Hk & _).
  by apply (removed_key_gone t k i e0 _ j e Hinv He0 Hl0 Hk0 He Hl).
Qed.

Lemma remove_live_mono t k t' b k' :
  invariant hash t → remove hash t k = Ok (t', b) →
  is_live t' k' → is_live t k'.
Proof.
  intros Hinv Hrem [v Hst]. destruct (decide (k' = k)) as [->|Hne].
  - destruct (remove_not_live t k t' b Hinv Hrem). by exists v.
  - exists v. by apply (remove_stored_other t k t' b k' v Hinv Hrem Hne).
Qed.

Lemma insert_live_mono t k v t' k' :
  well_formed t → insert hash t k v = Ok t' → is_live t k' → is_live t' k'.
Proof.
  intros Hwf Hins [v' Hst]. destruct (decide (k' = k)) as [->|Hne].
  - exists v. by apply (insert_stored_same t).
  - exists v'. by apply (insert_stored_other t k v t' k' v' Hwf Hins Hne).
Qed.

(** ** Further properties of the three operations *)

(** X1.  On a reachable table [retrieve(k)] returns [v] exactly when a
    live slot holds [(k, v)], and throws "Key not found" exactly when
    no live slot holds [k]. *)
Theorem retrieve_finds_what_is_stored t k :
  reachable hash t →
  (∀ v, retrieve hash t k = Ok v ↔ stored t k v) ∧
  (retrieve hash t k = Throw runtime_error ↔ ¬ is_live t k).
Proof.
  intros Hr. pose proof (reachable_invariant t Hr) as Hinv. split.
  - intros v. split; [apply retrieve_Ok_stored, Hinv | by apply retrieve_stored].
  - split.
    + intros Ht [v Hst]. apply (retrieve_stored t k v Hinv) in Hst. congruence.
    + intros Hno. apply retrieve_miss; [done|]. intros i e He Hl Hk.
      apply Hno. exists (value e). by exists i, e.
Qed.

(** X2.  An [insert(k, v)] that returns leaves the answer of
    [retrieve(k')] for every other key [k'] as it was. *)
Theorem insert_keeps_other_keys t k v t' k' :
  reachable hash t → insert hash t k v = Ok t' → k' ≠ k →
  retrieve hash t' k' = retrieve hash t k'.
Proof.
  intros Hr Hins Hne. pose proof (reachable_invariant t Hr) as Hinv.
  apply retrieve_same_stored; [done | by eapply insert_invariant |].
  intros v'. by apply (insert_stored_other t k v t'); [apply Hinv | |].
Qed.

(** X3.  [remove(k)] leaves the answer of [retrieve(k')] for every
    other key [k'] as it was. *)
Theorem remove_keeps_other_keys t k t' b k' :
  reachable hash t → remove hash t k = Ok (t', b) → k' ≠ k →
  retrieve hash t' k' = retrieve hash t k'.
Proof.
  intros Hr Hrem Hne. pose proof (reachable_invariant t Hr) as Hinv.
  apply retrieve_same_stored; [done | by eapply remove_invariant |].
  intros v'. by apply (remove_stored_other t k t' b).
Qed.

(** X4.  [insert(k, v)] throws "Hash table is full" exactly when every
    slot of the table has been written and none of them holds [k]. *)
Theorem insert_full_iff t k v :
  well_formed t →
  insert hash t k v = Throw overflow_error ↔
  (∀ i, 0 ≤ i < capacity t → ∃ k', written t i k' ∧ k' ≠ k).
Proof.
  intros Hwf. pose proof (home_range t k Hwf) as Hh.
  destruct (insert_with_spec (probe_bound t) t k v Hwf)
    as [[Hr Hall]|(d & e & Hd & He & Hb & _ & Hr)]; [lia | |];
    unfold insert; rewrite Hr; split; try done.
  - intros _ i Hi.
    destruct (off_surj t (home hash t k) i Hwf Hh Hi) as (d & Hd & <-).
    destruct (Hall d Hd) as (e & He & Hb).
    unfold blocks in Hb. apply andb_true_iff in Hb as [Ho Hk].
    apply negb_true_iff, bool_decide_eq_false in Hk.
    exists (key e). split; [by exists e | done].
  - intros Hall. destruct (Hall (off t (home hash t k) d)) as (k' & (e' & He' & Ho & Hk) & Hne);
      [by apply off_range|].
    destruct He as [_ He], He' as [_ He']. assert (e' = e) as -> by congruence.
    apply blocks_false in Hb. destruct Hb; congruence.
Qed.

Lemma insert_written t i k v :
  invariant hash t → written t i k →
  insert hash t k v = Ok (with_slot t i (Entry_of k v) (size t)).
Proof.
  intros [Hwf Hpath] (e & He & Ho & Hk).
  pose proof (home_range t k Hwf) as Hh.
  destruct (off_surj t (home hash t k) i Hwf Hh) as (di & Hdi & Hoff);
    [by eapply entry_at_range|].
  subst i k.
  assert (blocks (key e) e = false) as Hbe.
  { unfold blocks. by rewrite bool_decide_eq_true_2, andb_false_r. }
  destruct (insert_with_spec (probe_bound t) t (key e) v Hwf)
    as [[_ Hall]|(d & e' & Hd & He' & Hb & Hall & Hins)]; [lia | |].
  - destruct (Hall di Hdi) as (e2 & He2 & Hb2).
    destruct He as [_ He], He2 as [_ He2]. congruence.
  - unfold insert. rewrite Hins. do 3 f_equal.
    destruct (Z.lt_trichotomy d di) as [Hlt|[->|Hlt]]; [|done|].
    + destruct (Hpath di e Hdi He Ho d) as (e2 & He2 & Ho2 & Hne2); [lia|].
      destruct He' as [_ He'], He2 as [_ He2].
      assert (e2 = e') as -> by congruence.
      apply blocks_false in Hb. destruct Hb; congruence.
    + destruct (Hall di) as (e2 & He2 & Hb2); [lia|].
      destruct He as [_ He], He2 as [_ He2]. congruence.
Qed.

(** X5.  A key that has once been written to a slot goes back to that
    very slot: on a reachable table [insert(k, v)] then returns,
    whether the slot is active or deactivated, and overwrites that slot
    and nothing else. *)
Theorem insert_reuses_own_slot t i k v :
  reachable hash t → written t i k →
  insert hash t k v = Ok (with_slot t i (Entry_of k v) (size t)).
Proof. intros Hr. apply insert_written. by apply reachable_invariant. Qed.

Lemma apply_written t o i k :
  invariant hash t → written t i k → written (apply hash t o) i k.
Proof.
  intros Hinv (e & He & Ho & Hk). destruct o as [k' v|k'|k']; simpl.
  - destruct (insert hash t k' v) as [t'| | |] eqn:Hins; try by exists e.
    destruct (insert_Ok t k' v t' (proj1 Hinv) Hins) as (d & e0 & _ & He0 & Hb & _ & ->).
    destruct (decide (i = off t (home hash t k') d)) as [->|Hne].
    + exists (Entry_of k' v). rewrite (entry_at_with_slot _ _ _ _ _ _ _ He0).
      rewrite decide_True by done. split_and!; [done | done |]. simpl.
      destruct He as [_ He], He0 as [_ He0]. assert (e0 = e) as -> by congruence.
      apply blocks_false in Hb. destruct Hb; congruence.
    + exists e. rewrite (entry_at_with_slot _ _ _ _ _ _ _ He0).
      by rewrite decide_False.
  - by exists e.
  - destruct (remove_outcome t k' (proj1 Hinv)) as [->|(j & e0 & He0 & _ & _ & ->)];
      [by exists e|].
    destruct (decide (i = j)) as [->|Hne].
    + exists (set_active false e0). rewrite (entry_at_with_slot _ _ _ _ _ _ _ He0).
      rewrite decide_True by done.
      destruct He as [_ He], He0 as [_ He0]. assert (e0 = e) as -> by congruence.
      done.
    + exists e. rewrite (entry_at_with_slot _ _ _ _ _ _ _ He0).
      by rewrite decide_False.
Qed.

(** X6.  A slot that has been written stays written, with the key it
    got: no sequence of [insert], [retrieve] and [remove] calls empties
    it or gives it another key. *)
Theorem written_slots_stay t ops i k :
  reachable hash t → written t i k → written (run hash ops t) i k.
Proof.
  intros Hr. pose proof (reachable_invariant t Hr) as Hinv. clear Hr.
  revert t Hinv. induction ops as [|o ops IH]; intros t Hinv Hw; [done|].
  simpl. apply IH; [by apply apply_invariant | by apply apply_written].
Qed.

Lemma new_entries c t0 i e :
  new c = Ok t0 → entry_at t0 i e → e = Entry_default.
Proof.
  unfold new. destruct (c <? 0); [done|]. intros [= <-] [_ He]. simpl in He.
  by apply lookup_replicate_1 in He as [-> _].
Qed.

(** X7.  On a table just built with a positive capacity every
    [retrieve] throws "Key not found", every [remove] returns false
    and changes nothing, and [insert(k, v)] writes the home slot
    [hash(k) % capacity] of [k]. *)
Theorem fresh_table_behaviour c t0 k v :
  0 < c ≤ int_max → new c = Ok t0 →
  retrieve hash t0 k = Throw runtime_error ∧
  remove hash t0 k = Ok (t0, false) ∧
  insert hash t0 k v =
    Ok (with_slot t0 (to_size_t (hash k) mod c) (Entry_of k v) 0).
Proof.
  intros Hc Hnew. pose proof (new_invariant c t0 Hc Hnew) as Hinv.
  assert (∀ i e, entry_at t0 i e → live e = true → key e ≠ k) as Hno.
  { intros i e He Hl. by rewrite (new_entries c t0 i e Hnew He) in Hl. }
  split_and!; [by apply retrieve_miss | by apply remove_miss |].
  assert (capacity t0 = c ∧ size t0 = 0) as [Hcap Hsz].
  { unfold new in Hnew. destruct (c <? 0); [done|]. by injection Hnew as <-. }
  destruct Hinv as [Hwf _]. pose proof (home_range t0 k Hwf) as Hh.
  destruct (insert_with_spec (probe_bound t0) t0 k v Hwf)
    as [[_ Hall]|(d & e & Hd & He & Hb & Hall & Hins)]; [lia | |].
  - destruct (Hall 0) as (e & He & Hb); [lia|].
    by rewrite (new_entries c t0 _ e Hnew He) in Hb.
  - destruct (decide (d = 0)) as [->|Hne].
    + unfold insert. rewrite Hins, off_0, Hsz by done. unfold home, with_slot. by rewrite Hcap.
    + destruct (Hall 0) as (e' & He' & Hb'); [lia|].
      by rewrite (new_entries c t0 _ e' Hnew He') in Hb'.
Qed.

(** X8.  The constructor accepts capacity 0, and on the table it
    builds every call divides by zero in [hashFunction]; a negative
    capacity is refused with [length_error]. *)
Theorem degenerate_capacities k v :
  (∃ t0, new 0 = Ok t0 ∧
         insert hash t0 k v = Undefined DivisionByZero ∧
         retrieve hash t0 k = Undefined DivisionByZero ∧
         remove hash t0 k = Undefined DivisionByZero) ∧
  (∀ c, c < 0 → new (K := K) (V := V) c = Throw length_error).
Proof.
  split.
  - eexists. split; [reflexivity|]. by split_and!.
  - intros c Hc. unfold new. by destruct (Z.ltb_spec c 0); [|lia].
Qed.

(** X9.  Removing a key twice: whatever the first [remove(k)] returns,
    the second returns false and changes nothing. *)
Theorem remove_twice t k t' b :
  reachable hash t → remove hash t k = Ok (t', b) →
  remove hash t' k = Ok (t', false).
Proof.
  intros Hr Hrem. pose proof (reachable_invariant t Hr) as Hinv.
  apply remove_miss; [by eapply remove_invariant|].
  intros i e He Hl Hk. apply (remove_not_live t k t' b Hinv Hrem).
  exists (value e). by exists i, e.
Qed.

(** X10.  Inserting the same pair twice: the second [insert(k, v)]
    returns and leaves the table exactly as the first one left it. *)
Theorem insert_twice_same t k v t1 :
  reachable hash t → insert hash t k v = Ok t1 →
  insert hash t1 k v = Ok t1.
Proof.
  intros Hr Hins. pose proof (reachable_invariant t Hr) as Hinv.
  pose proof (insert_invariant t k v t1 Hinv Hins) as Hinv1.
  destruct (insert_entry t k v t1 (proj1 Hinv) Hins) as [i Hi].
  rewrite (insert_written t1 i k v Hinv1) by (by exists (Entry_of k v)).
  f_equal. destruct t1 as [tbl c sz]. unfold with_slot. simpl. f_equal.
  apply list_insert_id, Hi.
Qed.

Lemma apply_capacity t o :
  invariant hash t → capacity (apply hash t o) = capacity t.
Proof.
  intros Hinv. destruct o as [k v|k|k]; simpl; [|done|].
  - destruct (insert hash t k v) as [t'| | |] eqn:Hins; try done.
    by destruct (insert_Ok t k v t' (proj1 Hinv) Hins) as (d & e & _ & _ & _ & _ & ->).
  - by destruct (remove_outcome t k (proj1 Hinv)) as [->|(i & e & _ & _ & _ & ->)].
Qed.

(** X11.  I4: after any sequence of calls the capacity is the one the
    constructor was given, and the vector still has that many slots. *)
Theorem capacity_is_fixed c t0 ops :
  0 < c ≤ int_max → new c = Ok t0 →
  capacity (run hash ops t0) = c ∧
  Z.of_nat (length (table (run hash ops t0))) = c.
Proof.
  intros Hc Hnew. pose proof (new_invariant c t0 Hc Hnew) as Hinv.
  assert (capacity (run hash ops t0) = c) as Hcap.
  { assert (capacity t0 = c) as <-.
    { unfold new in Hnew. destruct (c <? 0); [done|]. by injection Hnew as <-. }
    clear Hnew Hc. revert t0 Hinv.
    induction ops as [|o ops IH]; intros t0 Hinv; [done|]. simpl.
    rewrite IH by (by apply apply_invariant). by apply apply_capacity. }
  split; [done|]. rewrite <- Hcap. apply (run_invariant ops t0 Hinv).
Qed.

(** ** The number of live slots *)

Lemma filter_insert_length {A} (P : A → Prop) `{∀ x, Decision (P x)}
    (l : list A) i x y :
  l !! i = Some y →
  (length (filter P (<[i:=x]> l)) + (if decide (P y) then 1 else 0) =
   length (filter P l) + (if decide (P x) then 1 else 0))%nat.
Proof.
  intros Hi. rewrite insert_take_drop by (by eapply lookup_lt_Some).
  rewrite <- (take_drop_middle l i y Hi) at 3.
  rewrite !filter_app, !filter_cons, !length_app.
  destruct (decide (P x)), (decide (P y)); simpl; lia.
Qed.

Lemma live_count_with_slot t i e0 x sz :
  entry_at t i e0 →
  live_count (with_slot t i x sz) + Z.b2z (live e0) =
  live_count t + Z.b2z (live x).
Proof.
  intros [_ He]. unfold live_count, with_slot. simpl.
  pose proof (filter_insert_length (λ e, live e = true) (table t) _ x e0 He) as Hlen.
  cbv beta in Hlen.
  destruct (live e0), (live x); repeat case_decide; try done; simpl; lia.
Qed.

(** X12.  The number of live slots, which [size] is meant to be: an
    [insert(k, v)] that returns adds one when [k] was not stored and
    none when it was; [remove(k)] takes one away when it returns true
    and none when it returns false.  The number is never negative and
    never above the capacity. *)
Theorem live_count_tracks_calls t k :
  reachable hash t →
  0 ≤ live_count t ≤ capacity t ∧
  (∀ v t', insert hash t k v = Ok t' →
     (is_live t k → live_count t' = live_count t) ∧
     (¬ is_live t k → live_count t' = live_count t + 1)) ∧
  (∀ t' b, remove hash t k = Ok (t', b) →
     live_count t' = live_count t - (if b then 1 else 0)).
Proof.
  intros Hr. pose proof (reachable_invariant t Hr) as Hinv. split; [|split].
  - unfold live_count. destruct Hinv as [[_ Hlen] _].
    pose proof (length_filter (λ e, live e = true) (table t)). lia.
  - intros v t' Hins. split.
    + intros (v0 & j & e & He & Hl & Hk & _).
      rewrite (insert_written t j k v Hinv) in Hins.
      2: { exists e. by apply live_true in Hl as [? _]. }
      injection Hins as <-.
      pose proof (live_count_with_slot t j e (Entry_of k v) (size t) He) as Hcnt.
      rewrite Hl in Hcnt. change (live (Entry_of k v)) with true in Hcnt.
      simpl Z.b2z in Hcnt. lia.
    + intros Hno.
      destruct (insert_Ok t k v t' (proj1 Hinv) Hins) as (d & e0 & _ & He0 & Hb & _ & ->).
      pose proof (live_count_with_slot t _ e0 (Entry_of k v) (size t) He0) as Hcnt.
      change (live (Entry_of k v)) with true in Hcnt.
      apply blocks_false in Hb.
      destruct (live e0) eqn:Hl0; [|simpl Z.b2z in Hcnt; lia].
      destruct Hno. exists (value e0), (off t (home hash t k) d), e0.
      split_and!; try done. apply live_true in Hl0 as [Ho0 _].
      destruct Hb; congruence.
  - intros t' b Hrem.
    destruct (remove_cases t k t' b Hinv Hrem)
      as [(-> & -> & _)|(-> & i & e0 & He0 & Hl0 & _ & ->)]; [lia|].
    pose proof (live_count_with_slot t i e0 (set_active false e0)
                  (to_int (size t - 1)) He0) as Hcnt.
    rewrite Hl0 in Hcnt.
    replace (live (set_active false e0)) with false in Hcnt
      by (unfold live; simpl; by rewrite andb_false_r).
    simpl Z.b2z in Hcnt. lia.
Qed.

(** ** The performance test *)

Lemma insert_each_outcome t kvs :
  invariant hash t →
  insert_each hash t kvs = Throw overflow_error
  ∨ ∃ t', insert_each hash t kvs = Ok t'.
Proof.
  revert t. induction kvs as [|[k v] kvs IH]; intros t Hinv; simpl; [eauto|].
  destruct (insert_outcome t k v (proj1 Hinv)) as [->|[t' Hins]]; [by left|].
  rewrite Hins. simpl. apply IH. by eapply insert_invariant.
Qed.

Lemma insert_each_Ok t kvs t1 :
  reachable hash t → insert_each hash t kvs = Ok t1 →
  reachable hash t1 ∧ capacity t1 = capacity t ∧
  (∀ k, k ∈ kvs.*1 → is_live t1 k) ∧
  (∀ k v, k ∉ kvs.*1 → stored t1 k v ↔ stored t k v).
Proof.
  revert t. induction kvs as [|[k v] kvs IH]; intros t Hr; simpl.
  - intros [= <-]. split_and!; try done. intros k Hk. by apply elem_of_nil in Hk.
  - pose proof (reachable_invariant t Hr) as Hinv.
    destruct (insert hash t k v) as [t'| | |] eqn:Hins; try done. simpl. intros Hrest.
    pose proof (reachable_insert t k v t' Hr Hins) as Hr'.
    destruct (IH t' Hr' Hrest) as (Hr1 & Hcap & Hlive & Hframe).
    split_and!; try done.
    + rewrite Hcap. pose proof (apply_capacity t (Insert k v) Hinv) as Hc.
      simpl in Hc. by rewrite Hins in Hc.
    + intros k' Hk'. apply elem_of_cons in Hk' as [->|Hk']; [|by apply Hlive].
      destruct (decide (k ∈ kvs.*1)) as [Hin|Hnin]; [by apply Hlive|].
      exists v. apply Hframe; [done|]. by apply (insert_stored_same t); [apply Hinv|].
    + intros k' v' Hk'. apply not_elem_of_cons in Hk' as [Hne Hk'].
      rewrite Hframe by done. by apply (insert_stored_other t k v t'); [apply Hinv| |].
Qed.

Lemma retrieve_each_Ok t ks :
  invariant hash t → (∀ k, k ∈ ks → is_live t k) →
  retrieve_each hash t ks = Ok ().
Proof.
  intros Hinv. induction ks as [|k ks IH]; intros Hlive; simpl; [done|].
  destruct (Hlive k) as [v Hst]; [by left|].
  rewrite (retrieve_stored t k v) by done. simpl.
  apply IH. intros k' Hk'. apply Hlive. by right.
Qed.

Lemma remove_each_Ok t ks :
  reachable hash t →
  ∃ t2, remove_each hash t ks = Ok t2 ∧ reachable hash t2 ∧
        (∀ k, is_live t2 k → is_live t k) ∧
        (∀ k, k ∈ ks → ¬ is_live t2 k) ∧
        (∀ k v, k ∉ ks → stored t2 k v ↔ stored t k v).
Proof.
  revert t. induction ks as [|k ks IH]; intros t Hr; simpl.
  - exists t. split_and!; try done. intros k Hk. by apply elem_of_nil in Hk.
  - pose proof (reachable_invariant t Hr) as Hinv.
    assert (∃ t' b, remove hash t k = Ok (t', b)) as (t' & b & Hrem).
    { destruct (remove_outcome t k (proj1 Hinv)) as [->|(i & e & _ & _ & _ & ->)]; eauto. }
    rewrite Hrem. simpl.
    pose proof (reachable_remove t k t' b Hr Hrem) as Hr'.
    destruct (IH t' Hr') as (t2 & Hrest & Hr2 & Hmono & Hgone & Hframe).
    exists t2. split_and!; try done.
    + intros k' Hl. by apply (remove_live_mono t k t' b), Hmono.
    + intros k' Hk' Hl. apply elem_of_cons in Hk' as [->|Hk']; [|by apply (Hgone k')].
      by apply (remove_not_live t k t' b Hinv Hrem), Hmono.
    + intros k' v' Hk'. apply not_elem_of_cons in Hk' as [Hne Hk'].
      rewrite Hframe by done. by apply (remove_stored_other t k t' b).
Qed.

Lemma performTest_Ok t n gen t2 :
  reachable hash t → performTest hash t n gen = Ok t2 →
  reachable hash t2 ∧
  (∀ k, k ∈ (generated gen n).*1 → ¬ is_live t2 k) ∧
  (∀ k v, k ∉ (generated gen n).*1 → stored t2 k v ↔ stored t k v).
Proof.
  intros Hr. unfold performTest. destruct (n <? 0); [done|]. simpl.
  destruct (insert_each hash t (generated gen n)) as [t1| | |] eqn:Hins; try done.
  destruct (insert_each_Ok t _ t1 Hr Hins) as (Hr1 & _ & Hlive & Hframe1).
  simpl. rewrite retrieve_each_Ok by (done || by apply reachable_invariant). simpl.
  destruct (remove_each_Ok t1 (generated gen n).*1 Hr1)
    as (t2' & Hrem & Hr2 & _ & Hgone & Hframe2).
  rewrite Hrem. intros [= <-]. split_and!; try done.
  intros k v Hk. by rewrite Hframe2, Hframe1.
Qed.

(** X13.  [performTest] never fails in its retrieve phase: with a
    negative count it throws [length_error]; otherwise it either
    throws "Hash table is full" out of one of its inserts or runs all
    three phases to the end (and the table stays a reachable one). *)
Theorem performTest_outcomes t n gen :
  reachable hash t →
  (n < 0 → performTest hash t n gen = Throw length_error) ∧
  (0 ≤ n →
     (performTest hash t n gen = Throw overflow_error ∧
      insert_each hash t (generated gen n) = Throw overflow_error)
     ∨ ∃ t2, performTest hash t n gen = Ok t2 ∧ reachable hash t2).
Proof.
  intros Hr. unfold performTest. split; intros Hn.
  - by destruct (Z.ltb_spec n 0); [|lia].
  - destruct (Z.ltb_spec n 0); [lia|]. simpl.
    destruct (insert_each_outcome t (generated gen n) (reachable_invariant t Hr))
      as [Hins|[t1 Hins]]; rewrite Hins; simpl; [by left|]. right.
    destruct (insert_each_Ok t _ t1 Hr Hins) as (Hr1 & _ & Hlive & _).
    rewrite retrieve_each_Ok by (done || by apply reachable_invariant). simpl.
    destruct (remove_each_Ok t1 (generated gen n).*1 Hr1) as (t2 & Hrem & Hr2 & _).
    by exists t2.
Qed.

(** X14.  When [performTest] runs to the end, none of the generated
    keys is stored any more, not even one that was stored before the
    test: [retrieve] throws "Key not found" for each of them. *)
Theorem performTest_removes_generated_keys t n gen t2 k :
  reachable hash t → performTest hash t n gen = Ok t2 →
  k ∈ (generated gen n).*1 →
  retrieve hash t2 k = Throw runtime_error.
Proof.
  intros Hr Htest Hk.
  destruct (performTest_Ok t n gen t2 Hr Htest) as (Hr2 & Hgone & _).
  apply retrieve_miss; [by apply reachable_invariant|].
  intros i e He Hl Hke. apply (Hgone k Hk). exists (value e). by exists i, e.
Qed.

(** X15.  When [performTest] runs to the end, [retrieve] answers for
    every key that was not generated as it did before the test. *)
Theorem performTest_keeps_other_keys t n gen t2 k :
  reachable hash t → performTest hash t n gen = Ok t2 →
  k ∉ (generated gen n).*1 →
  retrieve hash t2 k = retrieve hash t k.
Proof.
  intros Hr Htest Hk.
  destruct (performTest_Ok t n gen t2 Hr Htest) as (Hr2 & _ & Hframe).
  apply retrieve_same_stored; try by apply reachable_invariant.
  intros v. by apply Hframe.
Qed.

Lemma stored_keys_bounded t (ks : list K) :
  NoDup ks → (∀ k, k ∈ ks → is_live t k) →
  (length ks ≤ length (table t))%nat.
Proof.
  intros Hnd Hlive. rewrite <- (length_fmap key (table t)).
  apply submseteq_length, NoDup_submseteq; [done|].
  intros k Hk. destruct (Hlive k Hk) as (v & i & e & [_ He] & _ & <- & _).
  apply list_elem_of_fmap_2. by eapply list_elem_of_lookup_2.
Qed.

Lemma insert_each_beyond_capacity_aux t kvs :
  reachable hash t → NoDup kvs.*1 →
  capacity t < Z.of_nat (length kvs) →
  insert_each hash t kvs = Throw overflow_error.
Proof.
  intros Hr Hnd Hlen. pose proof (reachable_invariant t Hr) as Hinv.
  destruct (insert_each_outcome t kvs Hinv) as [|[t1 Hins]]; [done|].
  destruct (insert_each_Ok t kvs t1 Hr Hins) as (Hr1 & Hcap & Hlive & _).
  pose proof (stored_keys_bounded t1 kvs.*1 Hnd Hlive) as Hb.
  rewrite length_fmap in Hb.
  destruct (reachable_invariant t1 Hr1) as [[_ Hl1] _]. lia.
Qed.

(** X16.  P5, the capacity ceiling: inserting a run of pairwise
    distinct keys that is longer than the capacity throws "Hash table
    is full", whatever the table held before. *)
Theorem insert_each_beyond_capacity t kvs :
  reachable hash t → NoDup kvs.*1 →
  capacity t < Z.of_nat (length kvs) →
  insert_each hash t kvs = Throw overflow_error.
Proof. apply insert_each_beyond_capacity_aux. Qed.

(** ** The menu loop *)

Lemma turn_ordinary t r :
  reachable hash t → ordinary r = true →
  ∃ said t', turn hash t r = Ok (said, Some t') ∧
             reachable hash t' ∧ capacity t' = capacity t.
Proof.
  intros Hr Hord. pose proof (reachable_invariant t Hr) as Hinv.
  destruct r as [k v|k|k|n gen| |]; try done; simpl.
  - destruct (insert_outcome t k v (proj1 Hinv)) as [->|[t' Hins]]; [by eauto|].
    rewrite Hins. eexists _, t'. split_and!; [done | by eapply reachable_insert |].
    pose proof (apply_capacity t (Insert k v) Hinv) as Hc. simpl in Hc.
    by rewrite Hins in Hc.
  - destruct (retrieve_outcome t k (proj1 Hinv)) as [->|(i & e & _ & _ & _ & ->)];
      by eauto.
  - assert (∃ t' b, remove hash t k = Ok (t', b)) as (t' & b & Hrem).
    { destruct (remove_outcome t k (proj1 Hinv)) as [->|(i & e & _ & _ & _ & ->)]; eauto. }
    rewrite Hrem. simpl. eexists _, t'. split_and!; [done | by eapply reachable_remove |].
    pose proof (apply_capacity t (Remove k) Hinv) as Hc. simpl in Hc.
    by rewrite Hrem in Hc.
  - by eauto.
Qed.

(** X17.  No insert, retrieve or remove request, and no invalid
    choice, ends the menu loop: what [insert] and [retrieve] throw is
    caught, so after any run of such requests the loop is still
    running, with one report per request. *)
Theorem serve_ordinary_requests t rs :
  reachable hash t → Forall (λ r, ordinary r = true) rs →
  ∃ said t', serve hash t rs = Ok (said, Some t') ∧
             length said = length rs ∧
             reachable hash t' ∧ capacity t' = capacity t.
Proof.
  intros Hr Hall. revert t Hr.
  induction Hall as [|r rs Hord _ IH]; intros t Hr; simpl.
  - by exists [], t.
  - destruct (turn_ordinary t r Hr Hord) as (said & t' & Hturn & Hr' & Hcap).
    rewrite Hturn. simpl.
    destruct (IH t' Hr') as (more & t'' & Hserve & Hlen & Hr'' & Hcap').
    rewrite Hserve. simpl. exists (said :: more), t''.
    split_and!; [done | by simpl; rewrite Hlen | done | congruence].
Qed.

(** X18.  A performance test ends the program when its inserts run
    the table full, since nothing in [main] catches what [performTest]
    throws: after any run of ordinary requests, a test with more
    pairwise distinct keys than the capacity leaves [main] with
    "Hash table is full", whatever requests would follow. *)
Theorem serve_test_overflow t rs n gen rs' :
  reachable hash t → Forall (λ r, ordinary r = true) rs →
  NoDup (generated gen n).*1 → capacity t < n →
  serve hash t (rs ++ AskTest n gen :: rs') = Throw overflow_error.
Proof.
  intros Hr Hall Hnd Hn. revert t Hr Hn.
  induction Hall as [|r rs Hord _ IH]; intros t Hr Hn; simpl.
  - unfold performTest. destruct (Z.ltb_spec n 0).
    { destruct (reachable_invariant t Hr) as [[Hc _] _]. lia. }
    simpl. rewrite insert_each_beyond_capacity_aux; [done.. |].
    unfold generated. rewrite length_fmap, length_seq. lia.
  - destruct (turn_ordinary t r Hr Hord) as (said & t' & Hturn & Hr' & Hcap).
    rewrite Hturn. simpl. rewrite IH; [done | done | lia].
Qed.

(** X19.  P6: two different keys inserted one after the other are both
    kept, each with its own value, whether or not they share a home
    slot. *)
Theorem two_keys_both_kept t k1 v1 t1 k2 v2 t2 :
  reachable hash t → k1 ≠ k2 →
  insert hash t k1 v1 = Ok t1 → insert hash t1 k2 v2 = Ok t2 →
  retrieve hash t2 k1 = Ok v1 ∧ retrieve hash t2 k2 = Ok v2.
Proof.
  intros Hr Hne Hins1 Hins2. pose proof (reachable_invariant t Hr) as Hinv.
  pose proof (insert_invariant t k1 v1 t1 Hinv Hins1) as Hinv1.
  pose proof (insert_invariant t1 k2 v2 t2 Hinv1 Hins2) as Hinv2.
  split; [|by apply (insert_then_retrieve t1); [apply Hinv1|]].
  apply retrieve_stored; [done|].
  apply (insert_stored_other t1 k2 v2 t2); [apply Hinv1 | done | done |].
  by apply (insert_stored_same t); [apply Hinv|].
Qed.

(** X20.  [insert] never changes [size] or [capacity]: the increment
    after the overwrite is never reached. *)
Theorem insert_never_changes_size t k v t' :
  well_formed t → insert hash t k v = Ok t' →
  size t' = size t ∧ capacity t' = capacity t.
Proof.
  intros Hwf Hins.
  by destruct (insert_Ok t k v t' Hwf Hins) as (d & e & _ & _ & _ & _ & ->).
Qed.

End Properties.

(** ** The claims about [size] *)

Local Open Scope string_scope.

(** C1.  [insert] into a slot whose [active] flag is false does not
    increment [size]: the flag is tested after the slot has been
    overwritten with an active entry.  Seen on a slot never written
    (slot 2 of [fresh]) and on a deactivated one (slot 2 of
    [tombstoned]). *)
Theorem insert_does_not_count :
  (active <$> table Sample.fresh !! 2%nat = Some false ∧
   ∃ t', insert Sample.str_hash Sample.fresh "a" 1 = Ok t' ∧
         table t' !! 2%nat = Some (Entry_of "a" 1) ∧
         size Sample.fresh = 0 ∧ size t' = 0) ∧
  (active <$> table Sample.tombstoned !! 2%nat = Some false ∧
   ∃ t', insert Sample.str_hash Sample.tombstoned "a" 5 = Ok t' ∧
         table t' !! 2%nat = Some (Entry_of "a" 5) ∧
         size Sample.tombstoned = -1 ∧ size t' = -1).
Proof.
  split; (split; [by vm_compute|]); eexists;
    (split; [by vm_compute|]); split_and!; by vm_compute.
Qed.

(** C2.  [size] is not the number of live slots: it is 0 with one
    live slot after a single [insert], and negative, -1 with one live
    slot, after two inserts and a [remove]. *)
Theorem size_is_not_live_count :
  (size Sample.one_key = 0 ∧ live_count Sample.one_key = 1) ∧
  (size Sample.tombstoned = -1 ∧ live_count Sample.tombstoned = 1).
Proof. split_and!; by vm_compute. Qed.

(** A table of capacity 4 with two live slots and two deactivated ones
    refuses a fifth key. *)
Example full_with_two_tombstones :
  let t := Sample.table_of 4
             [Insert "a" 1; Insert "e" 2; Insert "b" 3; Insert "c" 4;
              Remove "a"; Remove "e"] in
  insert Sample.str_hash t "i" 5 = Throw overflow_error ∧ live_count t = 2.
Proof. split; by vm_compute. Qed.

(** A table given as [Sample.table_of 4 ops] is reachable: run [ops]. *)
Ltac reach_by_running :=
  lazymatch goal with
  | |- reachable _ (Sample.table_of _ ?ops) =>
      exists 4, Sample.fresh, ops; split_and!; by vm_compute
  | |- reachable _ ?t =>
      let t' := eval unfold Sample.one_key, Sample.tombstoned, Sample.fresh in t in
      change (reachable Sample.str_hash t'); reach_by_running
  end.

(** ** The theorems at concrete tables *)

Lemma insert_retrieve_roundtrip_witness :
  well_formed Sample.one_key ∧
  insert Sample.str_hash Sample.one_key "e" 7
    = Ok (Sample.table_of 4 [Insert "a" 1; Insert "e" 7]) ∧
  retrieve Sample.str_hash (Sample.table_of 4 [Insert "a" 1; Insert "e" 7]) "e" = Ok 7.
Proof.
  assert (well_formed Sample.one_key) as Hwf by (vm_compute; split_and!; congruence).
  assert (insert Sample.str_hash Sample.one_key "e" 7
            = Ok (Sample.table_of 4 [Insert "a" 1; Insert "e" 7])) as Hins
    by (vm_compute; reflexivity).
  split_and!; [exact Hwf | exact Hins |].
  exact (insert_retrieve_roundtrip Sample.str_hash Sample.one_key "e" 7 _ Hwf Hins).
Defined.

Lemma table_full_below_capacity_witness :
  "a" ≠ "b" ∧
  ∃ t, reachable Sample.str_hash t ∧
       insert Sample.str_hash t "b" 2 = Throw overflow_error ∧
       live_count t < capacity t ∧ size t < capacity t ∧
       ∃ i e, entry_at t i e ∧ occupied e = true ∧ active e = false ∧ key e ≠ "b".
Proof.
  assert ("a" ≠ "b") as Hne by (vm_compute; congruence).
  split; [exact Hne|].
  exact (table_full_below_capacity Sample.str_hash "a" "b" 2 Hne).
Defined.

Lemma insert_remove_retrieve_witness :
  reachable Sample.str_hash Sample.one_key ∧
  insert Sample.str_hash Sample.one_key "e" 2
    = Ok (Sample.table_of 4 [Insert "a" 1; Insert "e" 2]) ∧
  ∃ t2, remove Sample.str_hash (Sample.table_of 4 [Insert "a" 1; Insert "e" 2]) "e"
          = Ok (t2, true) ∧
        retrieve Sample.str_hash t2 "e" = Throw runtime_error ∧
        remove Sample.str_hash t2 "e" = Ok (t2, false).
Proof.
  assert (insert Sample.str_hash Sample.one_key "e" 2
            = Ok (Sample.table_of 4 [Insert "a" 1; Insert "e" 2])) as Hins
    by (vm_compute; reflexivity).
  assert (reachable Sample.str_hash Sample.one_key) as Hr by reach_by_running.
  split_and!; [exact Hr | exact Hins |].
  exact (insert_remove_retrieve Sample.str_hash Sample.one_key "e" 2 _ Hr Hins).
Defined.

Lemma insert_twice_updates_witness :
  reachable Sample.str_hash Sample.tombstoned ∧
  insert Sample.str_hash Sample.tombstoned "a" 3
    = Ok (Sample.table_of 4 [Insert "a" 1; Insert "e" 2; Remove "a"; Insert "a" 3]) ∧
  ∃ t2, insert Sample.str_hash
          (Sample.table_of 4 [Insert "a" 1; Insert "e" 2; Remove "a"; Insert "a" 3])
          "a" 4 = Ok t2 ∧
        live_count_of "a" t2 = 1 ∧
        retrieve Sample.str_hash t2 "a" = Ok 4.
Proof.
  assert (insert Sample.str_hash Sample.tombstoned "a" 3
    = Ok (Sample.table_of 4 [Insert "a" 1; Insert "e" 2; Remove "a"; Insert "a" 3]))
    as Hins by (vm_compute; reflexivity).
  assert (reachable Sample.str_hash Sample.tombstoned) as Hr by reach_by_running.
  split_and!; [exact Hr | exact Hins |].
  exact (insert_twice_updates Sample.str_hash Sample.tombstoned "a" 3 4 _ Hr Hins).
Defined.

Lemma live_keys_distinct_witness :
  0 < 4 ≤ int_max ∧ new 4 = Ok Sample.fresh ∧
  distinct_live_keys
    (run Sample.str_hash [Insert "a" 1; Insert "e" 2; Remove "a"; Insert "a" 3]
       Sample.fresh).
Proof.
  assert (0 < 4 ≤ int_max) as Hc by (vm_compute; split; congruence).
  assert (new 4 = Ok Sample.fresh) as Hnew by (vm_compute; reflexivity).
  split_and!; [apply Hc | apply Hc | exact Hnew |].
  exact (live_keys_distinct Sample.str_hash 4 Sample.fresh _ Hc Hnew).
Defined.

Lemma remove_reports_by_bool_witness :
  reachable Sample.str_hash Sample.tombstoned ∧
  remove Sample.str_hash Sample.tombstoned "a" = Ok (Sample.tombstoned, false) ∧
  ∃ t', remove Sample.str_hash Sample.tombstoned "e" = Ok (t', true) ∧
        table t' = <[3%nat := set_active false (Entry_of "e" 2)]> (table Sample.tombstoned) ∧
        size t' = -2.
Proof.
  assert (reachable Sample.str_hash Sample.tombstoned) as Hr by reach_by_running.
  pose proof (remove_reports_by_bool Sample.str_hash Sample.tombstoned "e" Hr)
    as (_ & _ & Hhit).
  destruct (Hhit 3 (Entry_of "e" 2)) as (t' & Hrem & _ & Htbl & _ & _ & Hsz);
    [by vm_compute | by vm_compute | by vm_compute |].
  split; [exact Hr|]. split; [by vm_compute|].
  exists t'. split_and!; [exact Hrem | exact Htbl |].
  apply Hsz. by vm_compute.
Defined.

Lemma probe_indices_in_bounds_witness :
  well_formed Sample.tombstoned ∧
  (∀ u, insert Sample.str_hash Sample.tombstoned "i" 9 ≠ Undefined u) ∧
  (∀ u, retrieve Sample.str_hash Sample.tombstoned "i" ≠ Undefined u) ∧
  (∀ u, remove Sample.str_hash Sample.tombstoned "i" ≠ Undefined u).
Proof.
  assert (well_formed Sample.tombstoned) as Hwf by (vm_compute; split_and!; congruence).
  split; [exact Hwf|].
  exact (proj2 (proj2 (probe_indices_in_bounds Sample.str_hash Sample.tombstoned "i" 9 Hwf))).
Defined.

Lemma probes_terminate_witness :
  well_formed Sample.tombstoned ∧ (Z.to_nat (capacity Sample.tombstoned) ≤ 10)%nat ∧
  insert_with Sample.str_hash 10 Sample.tombstoned "i" 9
    = insert_with Sample.str_hash 4 Sample.tombstoned "i" 9 ∧
  retrieve_with Sample.str_hash 10 Sample.tombstoned "i"
    = retrieve_with Sample.str_hash 4 Sample.tombstoned "i" ∧
  remove_with Sample.str_hash 10 Sample.tombstoned "i"
    = remove_with Sample.str_hash 4 Sample.tombstoned "i".
Proof.
  assert (well_formed Sample.tombstoned) as Hwf by (vm_compute; split_and!; congruence).
  assert (Z.to_nat (capacity Sample.tombstoned) ≤ 10)%nat as Hfuel by (vm_compute; lia).
  pose proof (probes_terminate Sample.str_hash Sample.tombstoned "i" 9 10 Hwf Hfuel)
    as ((Hi & _) & (Hr & _) & (Hd & _)).
  split_and!; [exact Hwf | exact Hfuel | exact Hi | exact Hr | exact Hd].
Defined.

(** ** The further properties at concrete tables *)

Ltac sample_well_formed := vm_compute; split_and!; congruence.

Lemma retrieve_finds_what_is_stored_witness :
  reachable Sample.str_hash Sample.tombstoned ∧
  (∀ v, retrieve Sample.str_hash Sample.tombstoned "e" = Ok v
        ↔ stored Sample.tombstoned "e" v) ∧
  (retrieve Sample.str_hash Sample.tombstoned "e" = Throw runtime_error
   ↔ ¬ is_live Sample.tombstoned "e").
Proof.
  assert (reachable Sample.str_hash Sample.tombstoned) as Hr by reach_by_running.
  exact (conj Hr (retrieve_finds_what_is_stored Sample.str_hash Sample.tombstoned "e" Hr)).
Defined.

Lemma insert_keeps_other_keys_witness :
  reachable Sample.str_hash Sample.one_key ∧
  insert Sample.str_hash Sample.one_key "e" 2 = Ok Sample.two_keys ∧
  "a" ≠ "e" ∧
  retrieve Sample.str_hash Sample.two_keys "a"
    = retrieve Sample.str_hash Sample.one_key "a".
Proof.
  assert (reachable Sample.str_hash Sample.one_key) as Hr by reach_by_running.
  assert (insert Sample.str_hash Sample.one_key "e" 2 = Ok Sample.two_keys) as Hins
    by (vm_compute; reflexivity).
  assert ("a" ≠ "e") as Hne by (vm_compute; congruence).
  split_and!; [exact Hr | exact Hins | exact Hne |].
  exact (insert_keeps_other_keys Sample.str_hash _ "e" 2 _ "a" Hr Hins Hne).
Defined.

Lemma remove_keeps_other_keys_witness :
  reachable Sample.str_hash Sample.two_keys ∧
  remove Sample.str_hash Sample.two_keys "a" = Ok (Sample.tombstoned, true) ∧
  "e" ≠ "a" ∧
  retrieve Sample.str_hash Sample.tombstoned "e"
    = retrieve Sample.str_hash Sample.two_keys "e".
Proof.
  assert (reachable Sample.str_hash Sample.two_keys) as Hr
    by (exists 4, Sample.fresh, [Insert "a" 1; Insert "e" 2]; split_and!; by vm_compute).
  assert (remove Sample.str_hash Sample.two_keys "a" = Ok (Sample.tombstoned, true))
    as Hrem by (vm_compute; reflexivity).
  assert ("e" ≠ "a") as Hne by (vm_compute; congruence).
  split_and!; [exact Hr | exact Hrem | exact Hne |].
  exact (remove_keeps_other_keys Sample.str_hash _ "a" _ true "e" Hr Hrem Hne).
Defined.

Lemma insert_full_iff_witness :
  well_formed Sample.tombstoned ∧
  (insert Sample.str_hash Sample.tombstoned "b" 3 = Throw overflow_error ↔
   ∀ i, 0 ≤ i < capacity Sample.tombstoned →
        ∃ k', written Sample.tombstoned i k' ∧ k' ≠ "b").
Proof.
  assert (well_formed Sample.tombstoned) as Hwf by sample_well_formed.
  exact (conj Hwf (insert_full_iff Sample.str_hash Sample.tombstoned "b" 3 Hwf)).
Defined.

Lemma insert_reuses_own_slot_witness :
  reachable Sample.str_hash Sample.tombstoned ∧
  written Sample.tombstoned 2 "a" ∧
  insert Sample.str_hash Sample.tombstoned "a" 9
    = Ok (with_slot Sample.tombstoned 2 (Entry_of "a" 9) (size Sample.tombstoned)).
Proof.
  assert (reachable Sample.str_hash Sample.tombstoned) as Hr by reach_by_running.
  assert (written Sample.tombstoned 2 "a") as Hw
    by (exists (set_active false (Entry_of "a" 1)); split_and!; by vm_compute).
  split_and!; [exact Hr | exact Hw |].
  exact (insert_reuses_own_slot Sample.str_hash _ 2 "a" 9 Hr Hw).
Defined.

Lemma written_slots_stay_witness :
  reachable Sample.str_hash Sample.one_key ∧
  written Sample.one_key 2 "a" ∧
  written (run Sample.str_hash [Remove "a"; Insert "e" 3; Insert "i" 4] Sample.one_key)
    2 "a".
Proof.
  assert (reachable Sample.str_hash Sample.one_key) as Hr by reach_by_running.
  assert (written Sample.one_key 2 "a") as Hw
    by (exists (Entry_of "a" 1); split_and!; by vm_compute).
  split_and!; [exact Hr | exact Hw |].
  exact (written_slots_stay Sample.str_hash _ _ 2 "a" Hr Hw).
Defined.

Lemma fresh_table_behaviour_witness :
  0 < 4 ≤ int_max ∧ new 4 = Ok Sample.fresh ∧
  retrieve Sample.str_hash Sample.fresh "a" = Throw runtime_error ∧
  remove Sample.str_hash Sample.fresh "a" = Ok (Sample.fresh, false) ∧
  insert Sample.str_hash Sample.fresh "a" 1 =
    Ok (with_slot Sample.fresh (to_size_t (Sample.str_hash "a") mod 4) (Entry_of "a" 1) 0).
Proof.
  assert (0 < 4 ≤ int_max) as Hc by (vm_compute; split; congruence).
  assert (new 4 = Ok Sample.fresh) as Hnew by (vm_compute; reflexivity).
  split; [exact Hc|]. split; [exact Hnew|].
  exact (fresh_table_behaviour Sample.str_hash 4 Sample.fresh "a" 1 Hc Hnew).
Defined.

Lemma degenerate_capacities_witness :
  -1 < 0 ∧ new (K := string) (V := Z) (-1) = Throw length_error.
Proof.
  assert (-1 < 0) as Hc by (by vm_compute).
  exact (conj Hc (proj2 (degenerate_capacities Sample.str_hash "a" 1) (-1) Hc)).
Defined.

Lemma remove_twice_witness :
  reachable Sample.str_hash Sample.two_keys ∧
  remove Sample.str_hash Sample.two_keys "a" = Ok (Sample.tombstoned, true) ∧
  remove Sample.str_hash Sample.tombstoned "a" = Ok (Sample.tombstoned, false).
Proof.
  assert (reachable Sample.str_hash Sample.two_keys) as Hr
    by (exists 4, Sample.fresh, [Insert "a" 1; Insert "e" 2]; split_and!; by vm_compute).
  assert (remove Sample.str_hash Sample.two_keys "a" = Ok (Sample.tombstoned, true))
    as Hrem by (vm_compute; reflexivity).
  split_and!; [exact Hr | exact Hrem |].
  exact (remove_twice Sample.str_hash _ "a" _ true Hr Hrem).
Defined.

Lemma insert_twice_same_witness :
  reachable Sample.str_hash Sample.one_key ∧
  insert Sample.str_hash Sample.one_key "e" 2 = Ok Sample.two_keys ∧
  insert Sample.str_hash Sample.two_keys "e" 2 = Ok Sample.two_keys.
Proof.
  assert (reachable Sample.str_hash Sample.one_key) as Hr by reach_by_running.
  assert (insert Sample.str_hash Sample.one_key "e" 2 = Ok Sample.two_keys) as Hins
    by (vm_compute; reflexivity).
  split_and!; [exact Hr | exact Hins |].
  exact (insert_twice_same Sample.str_hash _ "e" 2 _ Hr Hins).
Defined.

Lemma capacity_is_fixed_witness :
  0 < 4 ≤ int_max ∧ new 4 = Ok Sample.fresh ∧
  capacity (run Sample.str_hash [Insert "a" 1; Remove "a"; Insert "b" 2] Sample.fresh) = 4 ∧
  Z.of_nat (length (table
    (run Sample.str_hash [Insert "a" 1; Remove "a"; Insert "b" 2] Sample.fresh))) = 4.
Proof.
  assert (0 < 4 ≤ int_max) as Hc by (vm_compute; split; congruence).
  assert (new 4 = Ok Sample.fresh) as Hnew by (vm_compute; reflexivity).
  split; [exact Hc|]. split; [exact Hnew|].
  exact (capacity_is_fixed Sample.str_hash 4 Sample.fresh _ Hc Hnew).
Defined.

Lemma live_count_tracks_calls_witness :
  reachable Sample.str_hash Sample.tombstoned ∧
  (0 ≤ live_count Sample.tombstoned ≤ capacity Sample.tombstoned)%Z ∧
  (∀ t' b, remove Sample.str_hash Sample.tombstoned "e" = Ok (t', b) →
     live_count t' = live_count Sample.tombstoned - (if b then 1 else 0)).
Proof.
  assert (reachable Sample.str_hash Sample.tombstoned) as Hr by reach_by_running.
  pose proof (live_count_tracks_calls Sample.str_hash Sample.tombstoned "e" Hr)
    as (Hb & _ & Hrem).
  exact (conj Hr (conj Hb Hrem)).
Defined.

Lemma performTest_outcomes_witness :
  reachable Sample.str_hash Sample.one_key ∧ (0 ≤ 2)%Z ∧
  ((performTest Sample.str_hash Sample.one_key 2 Sample.letters = Throw overflow_error ∧
    insert_each Sample.str_hash Sample.one_key (generated Sample.letters 2)
      = Throw overflow_error)
   ∨ ∃ t2, performTest Sample.str_hash Sample.one_key 2 Sample.letters = Ok t2 ∧
           reachable Sample.str_hash t2).
Proof.
  assert (reachable Sample.str_hash Sample.one_key) as Hr by reach_by_running.
  assert (0 ≤ 2)%Z as Hn by (by vm_compute).
  split_and!; [exact Hr | exact Hn |].
  exact (proj2 (performTest_outcomes Sample.str_hash _ 2 Sample.letters Hr) Hn).
Defined.

Lemma performTest_removes_generated_keys_witness :
  reachable Sample.str_hash Sample.one_key ∧
  performTest Sample.str_hash Sample.one_key 2 Sample.letters
    = Ok (Sample.table_of 4 [Insert "a" 0; Insert "b" 1; Remove "a"; Remove "b"]) ∧
  ("a" ∈ (generated Sample.letters 2).*1) ∧
  retrieve Sample.str_hash
    (Sample.table_of 4 [Insert "a" 0; Insert "b" 1; Remove "a"; Remove "b"]) "a"
    = Throw runtime_error.
Proof.
  assert (reachable Sample.str_hash Sample.one_key) as Hr by reach_by_running.
  assert (performTest Sample.str_hash Sample.one_key 2 Sample.letters
    = Ok (Sample.table_of 4 [Insert "a" 0; Insert "b" 1; Remove "a"; Remove "b"]))
    as Htest by (vm_compute; reflexivity).
  assert ("a" ∈ (generated Sample.letters 2).*1) as Hk by (vm_compute; left).
  split_and!; [exact Hr | exact Htest | exact Hk |].
  exact (performTest_removes_generated_keys Sample.str_hash _ 2 _ _ "a" Hr Htest Hk).
Defined.

Lemma performTest_keeps_other_keys_witness :
  reachable Sample.str_hash Sample.two_keys ∧
  performTest Sample.str_hash Sample.two_keys 2 Sample.letters
    = Ok (Sample.table_of 4
            [Insert "a" 0; Insert "e" 2; Insert "b" 1; Remove "a"; Remove "b"]) ∧
  ("e" ∉ (generated Sample.letters 2).*1) ∧
  retrieve Sample.str_hash
    (Sample.table_of 4
       [Insert "a" 0; Insert "e" 2; Insert "b" 1; Remove "a"; Remove "b"]) "e"
    = retrieve Sample.str_hash Sample.two_keys "e".
Proof.
  assert (reachable Sample.str_hash Sample.two_keys) as Hr
    by (exists 4, Sample.fresh, [Insert "a" 1; Insert "e" 2]; split_and!; by vm_compute).
  assert (performTest Sample.str_hash Sample.two_keys 2 Sample.letters
    = Ok (Sample.table_of 4
            [Insert "a" 0; Insert "e" 2; Insert "b" 1; Remove "a"; Remove "b"]))
    as Htest by (vm_compute; reflexivity).
  assert ("e" ∉ (generated Sample.letters 2).*1) as Hk
    by (apply (bool_decide_unpack _); by vm_compute).
  split_and!; [exact Hr | exact Htest | exact Hk |].
  exact (performTest_keeps_other_keys Sample.str_hash _ 2 _ _ "e" Hr Htest Hk).
Defined.

Lemma insert_each_beyond_capacity_witness :
  reachable Sample.str_hash Sample.fresh ∧
  NoDup ((generated Sample.letters 5).*1) ∧
  capacity Sample.fresh < Z.of_nat (length (generated Sample.letters 5)) ∧
  insert_each Sample.str_hash Sample.fresh (generated Sample.letters 5)
    = Throw overflow_error.
Proof.
  assert (reachable Sample.str_hash Sample.fresh) as Hr by reach_by_running.
  assert (NoDup (generated Sample.letters 5).*1) as Hnd
    by (apply (bool_decide_unpack _); by vm_compute).
  assert (capacity Sample.fresh < Z.of_nat (length (generated Sample.letters 5))) as Hlen
    by (by vm_compute).
  split_and!; [exact Hr | exact Hnd | exact Hlen |].
  exact (insert_each_beyond_capacity Sample.str_hash _ _ Hr Hnd Hlen).
Defined.

Lemma serve_ordinary_requests_witness :
  reachable Sample.str_hash Sample.tombstoned ∧
  Forall (λ r : request string Z, ordinary r = true)
    [AskInsert "b" 1; AskInsert "c" 2; AskInsert "i" 3; AskRetrieve "z"; AskOther] ∧
  ∃ said t',
    serve Sample.str_hash Sample.tombstoned
      [AskInsert "b" 1; AskInsert "c" 2; AskInsert "i" 3; AskRetrieve "z"; AskOther]
      = Ok (said, Some t') ∧
    length said = 5%nat ∧
    reachable Sample.str_hash t' ∧ capacity t' = capacity Sample.tombstoned.
Proof.
  assert (reachable Sample.str_hash Sample.tombstoned) as Hr by reach_by_running.
  assert (Forall (λ r : request string Z, ordinary r = true)
    [AskInsert "b" 1; AskInsert "c" 2; AskInsert "i" 3; AskRetrieve "z"; AskOther])
    as Hall by (repeat constructor).
  split_and!; [exact Hr | exact Hall |].
  exact (serve_ordinary_requests Sample.str_hash _ _ Hr Hall).
Defined.

Lemma serve_test_overflow_witness :
  reachable Sample.str_hash Sample.one_key ∧
  Forall (λ r : request string Z, ordinary r = true) [AskRemove "a"; AskRetrieve "a"] ∧
  NoDup ((generated Sample.letters 5).*1) ∧ capacity Sample.one_key < 5 ∧
  serve Sample.str_hash Sample.one_key
    ([AskRemove "a"; AskRetrieve "a"] ++ AskTest 5 Sample.letters :: [AskExit])
    = Throw overflow_error.
Proof.
  assert (reachable Sample.str_hash Sample.one_key) as Hr by reach_by_running.
  assert (Forall (λ r : request string Z, ordinary r = true)
            [AskRemove "a"; AskRetrieve "a"]) as Hall by (repeat constructor).
  assert (NoDup (generated Sample.letters 5).*1) as Hnd
    by (apply (bool_decide_unpack _); by vm_compute).
  assert (capacity Sample.one_key < 5) as Hn by (by vm_compute).
  split_and!; [exact Hr | exact Hall | exact Hnd | exact Hn |].
  exact (serve_test_overflow Sample.str_hash _ _ 5 Sample.letters [AskExit] Hr Hall Hnd Hn).
Defined.

Lemma two_keys_both_kept_witness :
  reachable Sample.str_hash Sample.fresh ∧ "a" ≠ "e" ∧
  insert Sample.str_hash Sample.fresh "a" 1 = Ok Sample.one_key ∧
  insert Sample.str_hash Sample.one_key "e" 2 = Ok Sample.two_keys ∧
  retrieve Sample.str_hash Sample.two_keys "a" = Ok 1 ∧
  retrieve Sample.str_hash Sample.two_keys "e" = Ok 2.
Proof.
  assert (reachable Sample.str_hash Sample.fresh) as Hr by reach_by_running.
  assert ("a" ≠ "e") as Hne by (vm_compute; congruence).
  assert (insert Sample.str_hash Sample.fresh "a" 1 = Ok Sample.one_key) as H1
    by (vm_compute; reflexivity).
  assert (insert Sample.str_hash Sample.one_key "e" 2 = Ok Sample.two_keys) as H2
    by (vm_compute; reflexivity).
  split_and!; [exact Hr | exact Hne | exact H1 | exact H2 | |];
    apply (two_keys_both_kept Sample.str_hash _ "a" 1 _ "e" 2 _ Hr Hne H1 H2).
Defined.

Lemma insert_never_changes_size_witness :
  well_formed Sample.one_key ∧
  insert Sample.str_hash Sample.one_key "e" 2 = Ok Sample.two_keys ∧
  size Sample.two_keys = size Sample.one_key ∧
  capacity Sample.two_keys = capacity Sample.one_key.
Proof.
  assert (well_formed Sample.one_key) as Hwf by sample_well_formed.
  assert (insert Sample.str_hash Sample.one_key "e" 2 = Ok Sample.two_keys) as Hins
    by (vm_compute; reflexivity).
  split; [exact Hwf|]. split; [exact Hins|].
  exact (insert_never_changes_size Sample.str_hash _ "e" 2 _ Hwf Hins).
Defined.
